(** * Polyscope core: structure registry, global extent, pick controller

    A shallow embedding of [src/polyscope.cpp]: the global variables of the
    namespaces [state], [options], [view] and of the anonymous namespaces
    become fields of one record of globals that every function threads
    explicitly; [throw] becomes the second constructor of the result type;
    a [double] is a binary64 primitive float. *)

From Stdlib Require Import List String Ascii ZArith Lia Bool Arith Sorted.
From Stdlib Require Import Permutation NArith.
From Stdlib Require DecimalFacts DecimalPos DecimalN DecimalString.
From Stdlib Require Import Floats.
From Stdlib Require Uint63.
Import ListNotations.

Local Open Scope Z_scope.

(** ** [std::map]: an ordered map, iterated in increasing key order *)

Module stdmap.
Section Map.
Context {K V : Type}.
Variable cmp : K -> K -> comparison.

(** [m.find(k)]: [None] stands for [m.end()]. *)
Fixpoint find (k : K) (m : list (K * V)) : option V :=
  match m with
  | [] => None
  | (k', v) :: m' =>
    match cmp k k' with
    | Eq => Some v
    | _ => find k m'
    end
  end.

(** [m[k] = v]: the entry is created at its place in the key order, or
  overwritten when the key is there. *)
Fixpoint assign (k : K) (v : V) (m : list (K * V)) : list (K * V) :=
  match m with
  | [] => [(k, v)]
  | (k', v') :: m' =>
    match cmp k k' with
    | Lt => (k, v) :: (k', v') :: m'
    | Eq => (k', v) :: m'
    | Gt => (k', v') :: assign k v m'
    end
  end.

(** [m.erase(k)] *)
Fixpoint erase (k : K) (m : list (K * V)) : list (K * V) :=
  match m with
  | [] => []
  | (k', v') :: m' =>
    match cmp k k' with
    | Eq => erase k m'
    | _ => (k', v') :: erase k m'
    end
  end.

(** [m.clear()] *)
Definition clear (m : list (K * V)) : list (K * V) := [].

(** The values in iteration order: [for (auto x : m) ... x.second ...]. *)
Definition values (m : list (K * V)) : list V := map snd m.
End Map.
End stdmap.

(** ** [geometrycentral::Vector3] *)

Module geometrycentral.

Record Vector3 := mkVector3 { x : float; y : float; z : float }.

Definition scale (v : Vector3) (s : float) : Vector3 :=
  mkVector3 (x v * s) (y v * s) (z v * s).
Definition neg (v : Vector3) : Vector3 :=
  mkVector3 (- x v) (- y v) (- z v).
Definition add (u v : Vector3) : Vector3 :=
  mkVector3 (x u + x v) (y u + y v) (z u + z v).
Definition sub (u v : Vector3) : Vector3 :=
  mkVector3 (x u - x v) (y u - y v) (z u - z v).
(** [s * v], the scalar on the left *)
Definition smul (s : float) (v : Vector3) : Vector3 :=
  mkVector3 (s * x v) (s * y v) (s * z v).

(** [std::max(a, b)] is [(a < b) ? b : a], [std::min(a, b)] is
    [(b < a) ? b : a]. *)
Definition fmax (a b : float) : float := if (a <? b)%float then b else a.
Definition fmin (a b : float) : float := if (b <? a)%float then b else a.

(** Modelled from the spec: [componentwiseMin] is declared in
    geometrycentral's headers, which are not part of the sources; the
    spec has the running min corner updated componentwise with the corner
    of the structure. *)
Definition componentwiseMin (u v : Vector3) : Vector3 :=
  mkVector3 (fmin (x u) (x v)) (fmin (y u) (y v)) (fmin (z u) (z v)).

(** Modelled from the spec: [componentwiseMax], from the same headers;
    the running max corner is updated componentwise. *)
Definition componentwiseMax (u v : Vector3) : Vector3 :=
  mkVector3 (fmax (x u) (x v)) (fmax (y u) (y v)) (fmax (z u) (z v)).

(** Modelled from the spec: [norm], from the same headers; the Euclidean
    norm. *)
Definition norm (v : Vector3) : float :=
  sqrt (x v * x v + y v * y v + z v * z v).

(** Modelled from the spec: [Vector3::isFinite], from the same headers; a
    corner is non-finite when a coordinate is an infinity or not a
    number. *)
Definition isFinite (v : Vector3) : bool :=
  is_finite (x v) && is_finite (y v) && is_finite (z v).

Definition ones : Vector3 := mkVector3 1 1 1.
Definition zeros : Vector3 := mkVector3 0 0 0.

End geometrycentral.
Import geometrycentral.

(** ** Structures *)

(** The categories, in the order of the initialiser of
    [state::structureCategories]. *)
Inductive StructureType := PointCloud | SurfaceMesh | CameraView | RaySet.

Definition StructureType_index (t : StructureType) : nat :=
  match t with
  | PointCloud => 0
  | SurfaceMesh => 1
  | CameraView => 2
  | RaySet => 3
  end%nat.

Definition StructureType_compare (a b : StructureType) : comparison :=
  Nat.compare (StructureType_index a) (StructureType_index b).

(** A [Structure*]: the address returned by [new], with what the object at
    that address answers. The objects are never written after their
    construction, so the copies held by the typed map and by the category
    map are the one object as long as the address is live. *)
Module Structure.
Record t := mk {
  addr : nat;
  name : string;
  type : StructureType;
  boundingBox : Vector3 * Vector3;
  lengthScale : float
  }.
End Structure.

(** What a constructor ([new PointCloud(name, points)], ...) takes from
    its geometric argument, as far as this file reads it back. *)
Record Geometry := mkGeometry {
  geomBoundingBox : Vector3 * Vector3;
  geomLengthScale : float
}.

Abbreviation smap := (list (string * Structure.t)).

Definition sfind (k : string) (m : smap) : option Structure.t :=
  stdmap.find String.compare k m.
Definition sassign (k : string) (v : Structure.t) (m : smap) : smap :=
  stdmap.assign String.compare k v m.
Definition serase (k : string) (m : smap) : smap :=
  stdmap.erase String.compare k m.

Abbreviation cmap := (list (StructureType * smap)).

(** [structureCategories[t]]: [operator[]] creates an empty inner map
    when the category has no entry. *)
Definition cat_at (t : StructureType) (c : cmap) : smap :=
  match stdmap.find StructureType_compare t c with
  | Some m => m
  | None => []
  end.
Definition cat_update (t : StructureType) (f : smap -> smap) (c : cmap) : cmap :=
  stdmap.assign StructureType_compare t (f (cat_at t c)) c.

(** ** The pick selection *)

Module pick.

(** Modelled from the spec: [pick.h] and [pick.cpp] are not part of the
    sources. The pick controller has the states [NoSelection] and
    [Selected(structure, localIndex)]; the structure is referenced by its
    address. *)
Inductive Selection :=
  | NoSelection
  | Selected (structure : nat) (localIndex : Z).

(** Modelled from the spec: [pick::resetPick], the transition [reset]:
    unconditionally to [NoSelection]. *)
Definition resetPick (s : Selection) : Selection := NoSelection.

(** Modelled from the spec: [pick::clearPickIfStructureSelected], the
    transition [clearIfStructureSelected]: to [NoSelection] when the state
    is [Selected] and its structure pointer equals the argument. *)
Definition clearPickIfStructureSelected (p : Structure.t) (s : Selection)
  : Selection :=
  match s with
  | Selected q i => if Nat.eqb q (Structure.addr p) then NoSelection else s
  | NoSelection => NoSelection
  end.

(** Modelled from the spec: [pick::setCurrentPickElement]: a collaborator,
    [owner], resolves the global index into the structure that owns it
    and the local index within it, and the controller goes to [Selected];
    the double-click flag is passed on to the structure and does not
    decide the state. *)
Definition setCurrentPickElement (owner : Z -> nat * Z) (ind : Z)
  (doubleClick : bool) (s : Selection) : Selection :=
  Selected (fst (owner ind)) (snd (owner ind)).

(** Modelled from the spec: the encoder of the codec, a fixed radix scheme
    over the three channels, one digit per channel, the channels taken as
    the integral digits they stand for. *)
Definition encode (radix : Z) (index : Z) : Z * Z * Z :=
  (index mod radix, (index / radix) mod radix, (index / (radix * radix)) mod radix).

(** Modelled from the spec: the decoder, the exact inverse of the
    encoder; it is total, so that a colour that is the code of no index
    still decodes. *)
Definition decode (radix : Z) (color : Z * Z * Z) : Z :=
  let '(r, g, b) := color in r + radix * g + radix * radix * b.

(** Modelled from the spec: an index is representable in the codec when
    the three channels hold it, that is when it has at most three
    digits. *)
Definition representable (radix : Z) (index : Z) : Prop :=
  0 <= index < radix * radix * radix.

(** Modelled from the spec: [pick::vecToInd], the decoder as
    [evaluatePickQuery] calls it. *)
Definition vecToInd := decode.

End pick.

(** ** Globals *)

Module state.
Record t := mk {
  initialized : bool;
  lengthScale : float;
  boundingBox : Vector3 * Vector3;
  center : Vector3;
  structureCategories : cmap;
  pointClouds : smap;
  surfaceMeshes : smap;
  cameraViews : smap;
  raySets : smap
  }.

Definition init : t :=
  mk false 1 (zeros, zeros) zeros
     [(PointCloud, []); (SurfaceMesh, []); (CameraView, []); (RaySet, [])]
     [] [] [] [].
End state.

Module options.
Record t := mk {
  verbosity : Z;
  printPrefix : string;
  exceptionOnError : bool
}.
Definition init : t := mk 2 "Polyscope: " true.
End options.

Module view.
Record t := mk {
  windowWidth : Z;
  windowHeight : Z;
  bufferWidth : Z;
  bufferHeight : Z
  }.
End view.

(** The calls made to the graphics library that create or destroy
    storage, in the order they are made. *)
Inductive GLCall :=
| GenFramebuffers (fb : Z)
| GenRenderbuffers (rb : Z)
| RenderbufferStorage (rb : Z) (width height : Z)
| DeleteRenderbuffers (rbs : list Z).

(** The pick buffer state of the anonymous namespace; all five are
    [GLuint], unsigned 32-bit. *)
Module pickbuf.
Record t := mk {
  pickFramebuffer : Z;
  rboPickDepth : Z;
  rboPickColor : Z;
  currPickBufferWidth : Z;
  currPickBufferHeight : Z
  }.
Definition init : t := mk 0 0 0 0 0.
End pickbuf.

Record Globals := mkGlobals {
  st : state.t;
  opts : options.t;
  vw : view.t;
  pb : pickbuf.t;
  selection : pick.Selection;
  (** the addresses of the structures that are allocated and not deleted *)
  heap : list nat;
  (** the address the next [new] returns *)
  nextAddr : nat;
  (** the lines written to [std::cout] *)
  cout : list string;
  (** the object names the graphics library hands out, and its calls *)
  glNextName : Z;
  glCalls : list GLCall
}.

Definition set_st (f : state.t -> state.t) (g : Globals) : Globals :=
  mkGlobals (f (st g)) (opts g) (vw g) (pb g) (selection g) (heap g)
            (nextAddr g) (cout g) (glNextName g) (glCalls g).
Definition set_opts (o : options.t) (g : Globals) : Globals :=
  mkGlobals (st g) o (vw g) (pb g) (selection g) (heap g)
            (nextAddr g) (cout g) (glNextName g) (glCalls g).
Definition set_vw (v : view.t) (g : Globals) : Globals :=
  mkGlobals (st g) (opts g) v (pb g) (selection g) (heap g)
            (nextAddr g) (cout g) (glNextName g) (glCalls g).
Definition set_pb (f : pickbuf.t -> pickbuf.t) (g : Globals) : Globals :=
  mkGlobals (st g) (opts g) (vw g) (f (pb g)) (selection g) (heap g)
            (nextAddr g) (cout g) (glNextName g) (glCalls g).
Definition set_selection (f : pick.Selection -> pick.Selection) (g : Globals)
  : Globals :=
  mkGlobals (st g) (opts g) (vw g) (pb g) (f (selection g)) (heap g)
            (nextAddr g) (cout g) (glNextName g) (glCalls g).
Definition set_heap (f : list nat -> list nat) (g : Globals) : Globals :=
  mkGlobals (st g) (opts g) (vw g) (pb g) (selection g) (f (heap g))
            (nextAddr g) (cout g) (glNextName g) (glCalls g).
Definition set_nextAddr (n : nat) (g : Globals) : Globals :=
  mkGlobals (st g) (opts g) (vw g) (pb g) (selection g) (heap g)
            n (cout g) (glNextName g) (glCalls g).
Definition print (line : string) (g : Globals) : Globals :=
  mkGlobals (st g) (opts g) (vw g) (pb g) (selection g) (heap g)
            (nextAddr g) (cout g ++ [line]) (glNextName g) (glCalls g).
Definition glCall (c : GLCall) (g : Globals) : Globals :=
  mkGlobals (st g) (opts g) (vw g) (pb g) (selection g) (heap g)
            (nextAddr g) (cout g) (glNextName g) (glCalls g ++ [c]).

Definition initial (v : view.t) : Globals :=
  mkGlobals state.init options.init v pickbuf.init pick.NoSelection
            [] 0%nat [] 1 [].

(** ** Control: return, or throw with the globals as they are then *)

Inductive exception :=
| logic_error (what : string)
| runtime_error (what : string).

Inductive result (A : Type) :=
| Return (a : A) (g : Globals)
| Throw (e : exception) (g : Globals).
Arguments Return {A} a g.
Arguments Throw {A} e g.

Definition M (A : Type) := Globals -> result A.

Definition ret {A} (a : A) : M A := fun g => Return a g.
Definition bind {A B} (m : M A) (k : A -> M B) : M B :=
  fun g => match m g with
           | Return a g' => k a g'
           | Throw e g' => Throw e g'
           end.
Definition throw {A} (e : exception) : M A := fun g => Throw e g.
Definition get : M Globals := fun g => Return g g.
Definition modify (f : Globals -> Globals) : M unit := fun g => Return tt (f g).

Notation "x <- m ;; k" := (bind m (fun x => k))
  (at level 61, m at next level, right associativity).
Notation "m ;;; k" := (bind m (fun _ => k))
  (at level 61, right associativity).

(** The globals a call leaves behind, returned or thrown. *)
Definition after {A} (r : result A) : Globals :=
  match r with Return _ g => g | Throw _ g => g end.


(** ** [error] *)

Definition error (message : string) : M unit :=
  fun g =>
    if options.exceptionOnError (opts g)
    then Throw (logic_error (options.printPrefix (opts g) ++ message)) g
    else Return tt (print (options.printPrefix (opts g) ++ message) g).

(** ** [checkStructureNameInUse] *)

Fixpoint checkStructureNameInUse_loop (name : string) (throwError : bool)
  (cats : cmap) : M bool :=
  match cats with
  | [] => ret false
  | cat :: rest =>
      match sfind name (snd cat) with
      | Some _ =>
          (if throwError
           then error ("Structure name " ++ name ++ " is already in use.")
           else ret tt) ;;;
          ret true
      | None => checkStructureNameInUse_loop name throwError rest
      end
  end.

Definition checkStructureNameInUse (name : string) (throwError : bool)
  : M bool :=
  g <- get ;;
  checkStructureNameInUse_loop name throwError
    (state.structureCategories (st g)).

(** ** [updateStructureExtents] *)

(** The three running values of the loop: [state::lengthScale],
    [minBbox], [maxBbox]. *)
Definition extents_step (acc : float * Vector3 * Vector3) (x : Structure.t)
  : float * Vector3 * Vector3 :=
  let '(lengthScale, minBbox, maxBbox) := acc in
  let bbox := Structure.boundingBox x in
  (fmax lengthScale (Structure.lengthScale x),
   componentwiseMin minBbox (fst bbox),
   componentwiseMax maxBbox (snd bbox)).

Definition extents_loop (cats : cmap) (acc : float * Vector3 * Vector3)
  : float * Vector3 * Vector3 :=
  fold_left
    (fun acc cat => fold_left extents_step (stdmap.values (snd cat)) acc)
    cats acc.

Definition updateStructureExtents_state (s : state.t) : state.t :=
  let lengthScale := 0%float in
  let minBbox := scale ones infinity in
  let maxBbox := scale (neg ones) infinity in
  let '(lengthScale, minBbox, maxBbox) :=
    extents_loop (state.structureCategories s) (lengthScale, minBbox, maxBbox) in
  let '(minBbox, maxBbox) :=
    if negb (isFinite minBbox) || negb (isFinite maxBbox)
    then (neg ones, ones)
    else (minBbox, maxBbox) in
  let lengthScale :=
    if (lengthScale =? 0)%float then norm (sub maxBbox minBbox)
    else lengthScale in
  state.mk (state.initialized s) lengthScale (minBbox, maxBbox)
           (smul 0.5 (add minBbox maxBbox))
           (state.structureCategories s) (state.pointClouds s)
           (state.surfaceMeshes s) (state.cameraViews s) (state.raySets s).

Definition updateStructureExtents (g : Globals) : Globals :=
  set_st updateStructureExtents_state g.

(** ** The typed maps *)

Definition typedMap (t : StructureType) (s : state.t) : smap :=
  match t with
  | PointCloud => state.pointClouds s
  | SurfaceMesh => state.surfaceMeshes s
  | CameraView => state.cameraViews s
  | RaySet => state.raySets s
  end.

Definition set_structureCategories (f : cmap -> cmap) (s : state.t) : state.t :=
  state.mk (state.initialized s) (state.lengthScale s) (state.boundingBox s)
           (state.center s) (f (state.structureCategories s))
           (state.pointClouds s) (state.surfaceMeshes s)
           (state.cameraViews s) (state.raySets s).

Definition set_typedMap (t : StructureType) (f : smap -> smap) (s : state.t)
  : state.t :=
  let pc := state.pointClouds s in
  let sm := state.surfaceMeshes s in
  let cv := state.cameraViews s in
  let rs := state.raySets s in
  let mk' := state.mk (state.initialized s) (state.lengthScale s)
                      (state.boundingBox s) (state.center s)
                      (state.structureCategories s) in
  match t with
  | PointCloud => mk' (f pc) sm cv rs
  | SurfaceMesh => mk' pc (f sm) cv rs
  | CameraView => mk' pc sm (f cv) rs
  | RaySet => mk' pc sm cv (f rs)
  end.

Definition set_initialized (b : bool) (s : state.t) : state.t :=
  state.mk b (state.lengthScale s) (state.boundingBox s) (state.center s)
           (state.structureCategories s) (state.pointClouds s)
           (state.surfaceMeshes s) (state.cameraViews s) (state.raySets s).

(** ** [removeStructure] *)

(** [delete p] *)
Definition delete (p : Structure.t) (g : Globals) : Globals :=
  set_heap (List.remove Nat.eq_dec (Structure.addr p)) g.

(** The statements of one branch of [removeStructure], in order: the
    structure [p] was found under [name] in the typed map of [t]. *)
Definition removeStructure_statements (t : StructureType) (name : string)
  (p : Structure.t) : list (Globals -> Globals) :=
  [ set_selection (pick.clearPickIfStructureSelected p);
    delete p;
    set_st (set_typedMap t (serase name));
    set_st (set_structureCategories (cat_update t (serase name)));
    updateStructureExtents ].

Definition run_statements (l : list (Globals -> Globals)) (g : Globals)
  : Globals :=
  fold_left (fun g f => f g) l g.

(** The globals between the statements: before the first one, and after
    each. *)
Fixpoint observable (l : list (Globals -> Globals)) (g : Globals)
  : list Globals :=
  match l with
  | [] => [g]
  | f :: l' => g :: observable l' (f g)
  end.

(** The branch [removeStructure] takes: the first typed map, in the order
    point clouds, surface meshes, camera views, ray sets, that has the
    name. *)
Definition removeStructure_find (name : string) (s : state.t)
  : option (StructureType * Structure.t) :=
  match sfind name (state.pointClouds s) with
  | Some p => Some (PointCloud, p)
  | None =>
  match sfind name (state.surfaceMeshes s) with
  | Some p => Some (SurfaceMesh, p)
  | None =>
  match sfind name (state.cameraViews s) with
  | Some p => Some (CameraView, p)
  | None =>
  match sfind name (state.raySets s) with
  | Some p => Some (RaySet, p)
  | None => None
  end end end end.

Definition removeStructure (name : string) : M unit :=
  g <- get ;;
  match removeStructure_find name (st g) with
  | Some (t, p) => modify (run_statements (removeStructure_statements t name p))
  | None => error ("No structure named: " ++ name ++ " to remove.")
  end.

(** ** The register functions *)

(** [new T(name, geometry)] *)
Definition new (t : StructureType) (name : string) (geom : Geometry)
  : M Structure.t :=
  fun g =>
    let p := Structure.mk (nextAddr g) name t (geomBoundingBox geom)
                          (geomLengthScale geom) in
    Return p (set_nextAddr (S (nextAddr g)) (set_heap (cons (nextAddr g)) g)).

(** The body the four register functions share, each with its own typed
    map and category. *)
Definition registerStructure (t : StructureType) (name : string)
  (geom : Geometry) (replaceIfPresent : bool) : M unit :=
  inUse <- checkStructureNameInUse name (negb replaceIfPresent) ;;
  (if inUse : bool then removeStructure name else ret tt) ;;;
  p <- new t name geom ;;
  modify (set_st (set_typedMap t (sassign name p))) ;;;
  (* the right-hand side [state::pointClouds[name]] is [p], just stored *)
  modify (set_st (set_structureCategories (cat_update t (sassign name p)))) ;;;
  modify updateStructureExtents.

Definition registerPointCloud := registerStructure PointCloud.
Definition registerSurfaceMesh := registerStructure SurfaceMesh.
Definition registerCameraView := registerStructure CameraView.
Definition registerRaySet := registerStructure RaySet.

(** ** The getters; [None] is [nullptr] *)

Definition getStructure (t : StructureType) (kind : string) (name : string)
  : M (option Structure.t) :=
  g <- get ;;
  match sfind name (typedMap t (st g)) with
  | None =>
      error ("No " ++ kind ++ " with name " ++ name ++ " registered") ;;;
      ret None
  | Some p => ret (Some p)
  end.

Definition getPointCloud := getStructure PointCloud "point cloud".
Definition getCameraView := getStructure CameraView "camera view".
Definition getRaySet := getStructure RaySet "ray set".

(** ** [removeAllStructures] *)

Definition delete_all (m : smap) (g : Globals) : Globals :=
  fold_left (fun g x => delete (snd x) g) m g.

Definition removeAllStructures (g : Globals) : Globals :=
  let g := delete_all (state.pointClouds (st g)) g in
  let g := delete_all (state.surfaceMeshes (st g)) g in
  let g := set_st (set_typedMap PointCloud stdmap.clear) g in
  let g := set_st (set_typedMap SurfaceMesh stdmap.clear) g in
  let g := set_st (set_structureCategories stdmap.clear) g in
  let g := updateStructureExtents g in
  set_selection pick.resetPick g.


(** ** The pick buffer *)

(** Conversions between [int] and [GLuint], both 32 bits wide. *)
Definition to_GLuint (i : Z) : Z := i mod 2 ^ 32.
Definition to_int (u : Z) : Z :=
  let u := u mod 2 ^ 32 in
  if u <? 2 ^ 31 then u else u - 2 ^ 32.

Definition set_pickFramebuffer (n : Z) (b : pickbuf.t) : pickbuf.t :=
  pickbuf.mk n (pickbuf.rboPickDepth b) (pickbuf.rboPickColor b)
             (pickbuf.currPickBufferWidth b) (pickbuf.currPickBufferHeight b).
Definition set_rboPickDepth (n : Z) (b : pickbuf.t) : pickbuf.t :=
  pickbuf.mk (pickbuf.pickFramebuffer b) n (pickbuf.rboPickColor b)
             (pickbuf.currPickBufferWidth b) (pickbuf.currPickBufferHeight b).
Definition set_rboPickColor (n : Z) (b : pickbuf.t) : pickbuf.t :=
  pickbuf.mk (pickbuf.pickFramebuffer b) (pickbuf.rboPickDepth b) n
             (pickbuf.currPickBufferWidth b) (pickbuf.currPickBufferHeight b).
Definition set_currPickBufferWidth (n : Z) (b : pickbuf.t) : pickbuf.t :=
  pickbuf.mk (pickbuf.pickFramebuffer b) (pickbuf.rboPickDepth b)
             (pickbuf.rboPickColor b) n (pickbuf.currPickBufferHeight b).
Definition set_currPickBufferHeight (n : Z) (b : pickbuf.t) : pickbuf.t :=
  pickbuf.mk (pickbuf.pickFramebuffer b) (pickbuf.rboPickDepth b)
             (pickbuf.rboPickColor b) (pickbuf.currPickBufferWidth b) n.

(** [glGenRenderbuffers(1, &n)] and [glGenFramebuffers(1, &n)]: the
    library hands out a name it has not handed out before. *)
Definition glGen (call : Z -> GLCall) : M Z :=
  fun g =>
    let n := to_GLuint (glNextName g) in
    Return n
      (mkGlobals (st g) (opts g) (vw g) (pb g) (selection g) (heap g)
                 (nextAddr g) (cout g) (glNextName g + 1)
                 (glCalls g ++ [call n])).

Definition allocatePickRenderbuffers : M unit :=
  d <- glGen GenRenderbuffers ;;
  modify (set_pb (set_rboPickDepth d)) ;;;
  g <- get ;;
  modify (glCall (RenderbufferStorage d (view.bufferWidth (vw g))
                                      (view.bufferHeight (vw g)))) ;;;
  c <- glGen GenRenderbuffers ;;
  modify (set_pb (set_rboPickColor c)) ;;;
  modify (glCall (RenderbufferStorage c (view.bufferWidth (vw g))
                                      (view.bufferHeight (vw g)))) ;;;
  modify (set_pb (set_currPickBufferWidth (to_GLuint (view.bufferWidth (vw g))))) ;;;
  modify (set_pb (set_currPickBufferHeight (to_GLuint (view.bufferHeight (vw g))))).

Definition initPickBuffer : M unit :=
  f <- glGen GenFramebuffers ;;
  modify (set_pb (set_pickFramebuffer f)) ;;;
  allocatePickRenderbuffers.

(** ** [init] *)

(** What the window system and the graphics library answer during
    [init]. *)
Record InitEnv := mkInitEnv {
  glfwInit : bool;
  gladLoadGL : bool;
  glVersion : string;
  windowSize : Z * Z;
  framebufferSize : Z * Z
}.

Definition init (env : InitEnv) : M unit :=
  g <- get ;;
  let prefix := options.printPrefix (opts g) in
  if state.initialized (st g)
  then throw (logic_error (prefix ++ "Initialize called twice"))
  else
  if negb (glfwInit env)
  then throw (runtime_error (prefix ++ "ERROR: Failed to initialize glfw"))
  else
  if negb (gladLoadGL env)
  then throw (runtime_error (prefix ++ "ERROR: Failed to load openGL using GLAD"))
  else
  (if 0 <? options.verbosity (opts g)
   then modify (print (prefix ++ "Loaded openGL version: " ++ glVersion env))
   else ret tt) ;;;
  modify (set_vw (view.mk (fst (windowSize env)) (snd (windowSize env))
                          (fst (framebufferSize env))
                          (snd (framebufferSize env)))) ;;;
  initPickBuffer ;;;
  modify (set_st (set_initialized true)).

(** ** [evaluatePickQuery] *)

(** [rendered x y] is the pixel of the pick buffer at [(x, y)] once the
    pass that draws every structure in pick colours is finished, and
    [doubleClicked] is [ImGui::GetIO().MouseDoubleClicked[0]]; [owner]
    is the collaborator that resolves a global index. *)
Definition evaluatePickQuery (radix : Z) (owner : Z -> nat * Z)
  (rendered : Z -> Z -> Z * Z * Z) (doubleClicked : bool) (xPos yPos : Z)
  : M unit :=
  g <- get ;;
  (if negb (to_int (pickbuf.currPickBufferWidth (pb g)) =? view.bufferWidth (vw g))
      || negb (to_int (pickbuf.currPickBufferHeight (pb g)) =? view.bufferHeight (vw g))
   then
     modify (glCall (DeleteRenderbuffers [pickbuf.rboPickDepth (pb g);
                                          pickbuf.rboPickColor (pb g)])) ;;;
     allocatePickRenderbuffers
   else ret tt) ;;;
  let result := rendered xPos (view.bufferHeight (vw g) - yPos) in
  let ind := pick.vecToInd radix result in
  if ind =? 0
  then modify (set_selection pick.resetPick)
  else modify (set_selection (pick.setCurrentPickElement owner ind doubleClicked)).


(** ** The colour palette *)

Module palette.

(** A channel [n] stands for the [float] [n / 255.]. *)
Definition paletteColors : list (Z * Z * Z) :=
  [ (171, 71, 188);   (* purple *)
    (66, 165, 245);   (* light blue *)
    (38, 166, 154);   (* greenish *)
    (255, 167, 38);   (* orange *)
    (38, 198, 218) ]. (* teal *)

Definition size : Z := Z.of_nat (List.length paletteColors).

(** [paletteColors[i]]; [None] is an access out of range. *)
Definition at_ (i : Z) : option (Z * Z * Z) :=
  if (0 <=? i) && (i <? size) then nth_error paletteColors (Z.to_nat i)
  else None.

(** [random] is what [randomInt(0, paletteColors.size() - 1)] returns when
    it is called; the first component of the state that is returned is
    the new [iPaletteColor]. The sum is converted to [size_t] before the
    remainder is taken. *)
Definition getNextPaletteColor (random : Z) (iPaletteColor : Z)
  : Z * option (Z * Z * Z) :=
  let iPaletteColor := if iPaletteColor =? -1 then random else iPaletteColor in
  let color := at_ iPaletteColor in
  (((iPaletteColor + 1) mod 2 ^ 64) mod size, color).

(** Successive calls, one random answer at hand for each. *)
Fixpoint calls (randoms : list Z) (iPaletteColor : Z)
  : list (option (Z * Z * Z)) :=
  match randoms with
  | [] => []
  | r :: rest =>
      let '(i, c) := getNextPaletteColor r iPaletteColor in
      c :: calls rest i
  end.

End palette.

(** ** [screenshot] *)

Module screenshots.

(** Zeros in front of the digits. *)
Fixpoint pad_zeros (n : nat) (d : Decimal.uint) : Decimal.uint :=
  match n with
  | O => d
  | S n => Decimal.D0 (pad_zeros n d)
  end.

(** The conversion [%06zu]: the decimal digits, with zeros in front up to
    a width of six. *)
Definition format_06zu (n : N) : string :=
  let d := N.to_uint n in
  DecimalString.NilEmpty.string_of_uint
    (pad_zeros (6 - Decimal.nb_digits d) d).

(** [snprintf(buff, 50, "screenshot_%06zu.png", state::screenshotInd)]:
    at most 49 characters are stored. *)
Definition defaultName (screenshotInd : Z) : string :=
  substring 0 49
    ("screenshot_" ++ format_06zu (Z.to_N screenshotInd) ++ ".png").

(** [screenshot()]: the name the image is saved under, and the counter
    once it is incremented; the counter is a [size_t]. *)
Definition screenshot (screenshotInd : Z) : string * Z :=
  (defaultName screenshotInd, (screenshotInd + 1) mod 2 ^ 64).

End screenshots.

(** ** [processMouseEvents] *)

(** A [float] is held as the [double] of the same value. [to_float] is
    the conversion of a [double] to [float]: to the nearest [float], ties
    to even, an infinity beyond the largest one. *)
Definition to_float (x : float) : float :=
  match Prim2SF x with
  | S754_finite s m e =>
      match SpecFloat.binary_normalize 24 128
              (if s then Z.neg m else Z.pos m) e s with
      | S754_finite s' m' e' =>
          SF2Prim (SpecFloat.binary_normalize 53 1024
                     (if s' then Z.neg m' else Z.pos m') e' s')
      | r => SF2Prim r
      end
  | _ => x
  end.

(** The conversion of an [int] to [float]. *)
Definition int_to_float (i : Z) : float :=
  to_float (if i <? 0
            then PrimFloat.opp (PrimFloat.of_uint63 (Uint63.of_Z (- i)))
            else PrimFloat.of_uint63 (Uint63.of_Z i)).

(** The conversion of a [float] to [int] drops the fraction; [None] is
    the undefined behaviour of a value that is no [int] then. *)
Definition float_to_int (x : float) : option Z :=
  match Prim2SF x with
  | S754_zero _ => Some 0
  | S754_finite s m e =>
      let magnitude :=
        if 0 <=? e then Z.pos m * 2 ^ e else Z.pos m / 2 ^ (- e) in
      let i := if s then - magnitude else magnitude in
      if (- 2 ^ 31 <=? i) && (i <? 2 ^ 31) then Some i else None
  | _ => None
  end.

Module ImGui.

(** What [processMouseEvents] and [evaluatePickQuery] read of ImGui in
    one frame. *)
Record IO := mkIO {
  WantCaptureMouse : bool;
  KeyShift : bool;
  MouseDelta : float * float;
  DisplayFramebufferScale : float * float;
  MouseDoubleClicked0 : bool;   (* io.MouseDoubleClicked[0] *)
  IsMouseDragging0 : bool;      (* ImGui::IsMouseDragging(0) *)
  IsMouseReleased0 : bool;      (* ImGui::IsMouseReleased(0) *)
  GetMousePos : float * float
}.

End ImGui.

(** One frame of the main loop: the inputs, and the pixels of the pick
    buffer a pick query of this frame would read. *)
Record Frame := mkFrame {
  io : ImGui.IO;
  pickPixels : Z -> Z -> Z * Z * Z
}.

(** The [float] [dragDistSinceLastRelease], and the calls of
    [view::processMouseDrag] so far, the oldest first. *)
Record Mouse := mkMouse {
  dragDistSinceLastRelease : float;
  processMouseDrag : list (float * float * bool)
}.

(** [Vector2 dragDelta{io.MouseDelta.x / view::windowWidth,
    -io.MouseDelta.y / view::windowHeight}]: two [float] quotients. *)
Definition dragDelta (i : ImGui.IO) (v : view.t) : float * float :=
  (to_float (fst (ImGui.MouseDelta i) / int_to_float (view.windowWidth v)),
   to_float (- snd (ImGui.MouseDelta i) / int_to_float (view.windowHeight v)))%float.

(** The arguments of the pick query: two [float] products, converted to
    [int]. *)
Definition pickArguments (i : ImGui.IO) : option (Z * Z) :=
  let scale := ImGui.DisplayFramebufferScale i in
  let p := ImGui.GetMousePos i in
  match float_to_int (to_float (fst scale * fst p)),
        float_to_int (to_float (snd scale * snd p)) with
  | Some x, Some y => Some (x, y)
  | _, _ => None
  end.

(** [None] is undefined behaviour. The sums are taken in [double] and
    stored as [float]; the comparison is with the [double] [.01]. *)
Definition processMouseEvents (radix : Z) (owner : Z -> nat * Z)
  (f : Frame) (m : Mouse) : option (M Mouse) :=
  if negb (ImGui.WantCaptureMouse (io f))
  then
    if ImGui.IsMouseDragging0 (io f)
    then Some (
      g <- get ;;
      let d := dragDelta (io f) (vw g) in
      let dist1 := to_float (dragDistSinceLastRelease m + abs (fst d)) in
      let dist2 := to_float (dist1 + abs (snd d)) in
      ret (mkMouse dist2 (processMouseDrag m
                            ++ [(d, negb (ImGui.KeyShift (io f)))])))
    else
      if ImGui.IsMouseReleased0 (io f)
      then
        if (dragDistSinceLastRelease m <? 0x1.47ae147ae147bp-7)%float
        then
          match pickArguments (io f) with
          | Some (x, y) => Some (
              evaluatePickQuery radix owner (pickPixels f)
                (ImGui.MouseDoubleClicked0 (io f)) x y ;;;
              ret (mkMouse 0 (processMouseDrag m)))
          | None => None
          end
        else Some (ret (mkMouse 0 (processMouseDrag m)))
      else Some (ret m)
  else Some (ret m).

(** The calls of [processMouseEvents] of successive frames. *)
Fixpoint processFrames (radix : Z) (owner : Z -> nat * Z)
  (frames : list Frame) (m : Mouse) (g : Globals) : option (result Mouse) :=
  match frames with
  | [] => Some (Return m g)
  | f :: rest =>
      match processMouseEvents radix owner f m with
      | None => None
      | Some run =>
          match run g with
          | Return m' g' => processFrames radix owner rest m' g'
          | Throw e g' => Some (Throw e g')
          end
      end
  end.

(** The frame drags in the scene. *)
Definition dragging (f : Frame) : bool :=
  negb (ImGui.WantCaptureMouse (io f)) && ImGui.IsMouseDragging0 (io f).

(** The button is released in the scene, not dragging. *)
Definition released (f : Frame) : bool :=
  negb (ImGui.WantCaptureMouse (io f))
  && negb (ImGui.IsMouseDragging0 (io f))
  && ImGui.IsMouseReleased0 (io f).

(** ** The extent, as the specification words it *)

(** The live structures: every entry of every category, in the order the
    loops visit them. *)
Definition liveStructures (s : state.t) : list Structure.t :=
  flat_map (fun cat => stdmap.values (snd cat)) (state.structureCategories s).

Module extent_spec.

(** Steps 1 and 2: three folds over the live structures, from zero and
    from the infinite corners. *)
Definition foldedLengthScale (l : list Structure.t) : float :=
  fold_left fmax (map Structure.lengthScale l) 0%float.
Definition foldedMin (l : list Structure.t) : Vector3 :=
  fold_left componentwiseMin (map (fun s => fst (Structure.boundingBox s)) l)
            (mkVector3 infinity infinity infinity).
Definition foldedMax (l : list Structure.t) : Vector3 :=
  fold_left componentwiseMax (map (fun s => snd (Structure.boundingBox s)) l)
            (mkVector3 neg_infinity neg_infinity neg_infinity).

(** Step 3: a non-finite corner resets the box. *)
Definition boundingBox (l : list Structure.t) : Vector3 * Vector3 :=
  if isFinite (foldedMin l) && isFinite (foldedMax l)
  then (foldedMin l, foldedMax l)
  else (mkVector3 (-1) (-1) (-1), mkVector3 1 1 1).

(** Step 4: a length scale of exactly zero is replaced by the norm of the
    diagonal. *)
Definition lengthScale (l : list Structure.t) : float :=
  if (foldedLengthScale l =? 0)%float
  then norm (sub (snd (boundingBox l)) (fst (boundingBox l)))
  else foldedLengthScale l.

(** Step 5: the midpoint of the corners. *)
Definition center (l : list Structure.t) : Vector3 :=
  smul 0.5 (add (fst (boundingBox l)) (snd (boundingBox l))).

End extent_spec.

(** ** Sequences of registry operations *)

Inductive Op :=
| Register (t : StructureType) (name : string) (geom : Geometry)
           (replaceIfPresent : bool)
| Remove (name : string)
| RemoveAll.

(** An operation that throws leaves the globals as they are at the
    [throw]; the caller goes on from there. *)
Definition run_op (g : Globals) (op : Op) : Globals :=
  match op with
  | Register t name geom replaceIfPresent =>
      after (registerStructure t name geom replaceIfPresent g)
  | Remove name => after (removeStructure name g)
  | RemoveAll => removeAllStructures g
  end.

Definition run_ops (ops : list Op) (g : Globals) : Globals :=
  fold_left run_op ops g.

(** No name is in the typed maps of two categories. *)
Definition names_unique (g : Globals) : Prop :=
  forall t1 t2 name,
    sfind name (typedMap t1 (st g)) <> None ->
    sfind name (typedMap t2 (st g)) <> None ->
    t1 = t2.

(** Each typed map holds what the category map holds for its category. *)
Definition maps_agree (g : Globals) : Prop :=
  forall t name,
    sfind name (typedMap t (st g))
    = sfind name (cat_at t (state.structureCategories (st g))).

(** The selection, when there is one, references an allocated structure. *)
Definition selection_live (g : Globals) : Prop :=
  match selection g with
  | pick.NoSelection => True
  | pick.Selected p _ => In p (heap g)
  end.

(** The empty-registry extent. *)
Definition default_extent (s : state.t) : Prop :=
  state.boundingBox s = (mkVector3 (-1) (-1) (-1), mkVector3 1 1 1)
  /\ state.lengthScale s = norm (mkVector3 2 2 2)
  /\ state.center s = mkVector3 0 0 0.

(** A message went through [error]: thrown as a [logic_error] with the
    globals untouched when [options::exceptionOnError] is set, else
    printed, the call going on to return. *)
Definition reported {A} (message : string) (g : Globals) (r : result A)
  : Prop :=
  let line := (options.printPrefix (opts g) ++ message)%string in
  if options.exceptionOnError (opts g)
  then r = Throw (logic_error line) g
  else exists a g' rest, r = Return a g' /\ cout g' = cout g ++ line :: rest.

(** ** Predicates of the statements *)




(** Some category of the category map has the name. *)
Definition nameInUse (name : string) (g : Globals) : Prop :=
  exists cat, In cat (state.structureCategories (st g))
              /\ sfind name (snd cat) <> None.

(** [x] is a number. *)
Definition number (x : float) : Prop := Prim2SF x <> S754_nan.

(** The operation is a register or a remove. *)
Definition register_or_remove (op : Op) : Prop :=
  match op with RemoveAll => False | _ => True end.

(** The keys of a map increase strictly along the list, so that each key
    occurs once, as in a [std::map]. *)
Definition sorted {K V : Type} (cmp : K -> K -> comparison)
  (m : list (K * V)) : Prop :=
  StronglySorted (fun a b => cmp (fst a) (fst b) = Lt) m.

(** Every map of the registry is one. *)
Definition maps_sorted (g : Globals) : Prop :=
  (forall t, sorted String.compare (typedMap t (st g)))
  /\ sorted StructureType_compare (state.structureCategories (st g))
  /\ (forall cat, In cat (state.structureCategories (st g)) ->
                  sorted String.compare (snd cat)).

(** Every structure of a typed map is allocated. *)
Definition typed_live (g : Globals) : Prop :=
  forall t n p,
    sfind n (typedMap t (st g)) = Some p -> In (Structure.addr p) (heap g).

(** What a category holds under a name, its typed map holds too. *)
Definition cats_in_typed (g : Globals) : Prop :=
  forall t n p,
    sfind n (cat_at t (state.structureCategories (st g))) = Some p ->
    sfind n (typedMap t (st g)) = Some p.

(** Two entries of the typed maps hold two addresses. *)
Definition addresses_distinct (g : Globals) : Prop :=
  forall t n p t' n' p',
    sfind n (typedMap t (st g)) = Some p ->
    sfind n' (typedMap t' (st g)) = Some p' ->
    Structure.addr p = Structure.addr p' -> t = t' /\ n = n'.

(** [new] has not yet handed out the address it returns next. *)
Definition heap_below (g : Globals) : Prop :=
  forall a, In a (heap g) -> (a < nextAddr g)%nat.

(** No pointer the registry or the selection holds is dangling. *)
Definition memory_safe (g : Globals) : Prop :=
  maps_sorted g /\ typed_live g /\ cats_in_typed g /\ addresses_distinct g
  /\ heap_below g /\ selection_live g.

(** Every allocated structure is in a typed map. *)
Definition no_leak (g : Globals) : Prop :=
  forall a, In a (heap g) ->
    exists t n p, sfind n (typedMap t (st g)) = Some p
                  /\ Structure.addr p = a.

(** The stored extent is the one the registry gives. *)
Definition extent_consistent (s : state.t) : Prop :=
  state.lengthScale s = extent_spec.lengthScale (liveStructures s)
  /\ state.boundingBox s = extent_spec.boundingBox (liveStructures s)
  /\ state.center s = extent_spec.center (liveStructures s).

(** ** Example inputs *)

Definition exampleView : view.t := view.mk 1280 720 2560 1440.

Definition unitBox : Geometry :=
  mkGeometry (mkVector3 0 0 0, mkVector3 1 1 1) 1.

Definition farBox : Geometry :=
  mkGeometry (mkVector3 2 2 2, mkVector3 3 3 3) 1.

Definition exampleEnv : InitEnv :=
  mkInitEnv true true "4.0" (1280, 720) (2560, 1440).

(** [options::exceptionOnError = false] *)
Definition logAndContinue (g : Globals) : Globals :=
  set_opts (options.mk (options.verbosity (opts g))
                       (options.printPrefix (opts g)) false) g.

(** A registry with the point cloud ["a"], selected at local index 5. *)
Definition selectedCloud : Globals :=
  set_selection (fun _ => pick.Selected 0 5)
    (after (registerPointCloud "a" unitBox false (initial exampleView))).

(** Initialised, with [options::exceptionOnError = false]. *)
Definition initializedLogging : Globals :=
  logAndContinue (after (init exampleEnv (initial exampleView))).

(** The point cloud ["a"] registered, with
    [options::exceptionOnError = false]. *)
Definition cloudLogging : Globals :=
  logAndContinue
    (after (registerPointCloud "a" unitBox false (initial exampleView))).

(** A registry with the camera view ["cam"]. *)
Definition oneCamera : Globals :=
  after (registerCameraView "cam" unitBox false (initial exampleView)).

(** The point cloud ["A"] and the surface mesh ["B"] registered. *)
Definition twoBoxes : Globals :=
  after (registerSurfaceMesh "B" farBox false
           (after (registerPointCloud "A" unitBox false
                     (initial exampleView)))).

(** A frame in the scene, the mouse moved by 64 by 36 pixels and at
    (100.25, 50.75), the framebuffer twice the size of the window; the
    pick buffer holds the background. *)
Definition sceneFrame (isDragging isReleased : bool) : Frame :=
  mkFrame (ImGui.mkIO false false (64, 36)%float (2, 2)%float false
             isDragging isReleased (100.25, 50.75)%float)
          (fun _ _ => (0, 0, 0)).

(** The button is released over a window of the interface. *)
Definition capturedRelease : Frame :=
  mkFrame (ImGui.mkIO true false (0, 0)%float (2, 2)%float false
             false true (100.25, 50.75)%float)
          (fun _ _ => (0, 0, 0)).

(** * Properties *)

(** ** The pick codec *)

Lemma encode_zero radix : pick.encode radix 0 = (0, 0, 0).
Proof.
  unfold pick.encode. now rewrite !Zdiv_0_l, !Zmod_0_l.
Qed.

Lemma decode_encode radix i :
  1 < radix -> pick.representable radix i ->
  pick.decode radix (pick.encode radix i) = i.
Proof.
  unfold pick.representable, pick.decode, pick.encode. intros Hr [Hlo Hhi].
  assert (Hhigh : (i / (radix * radix)) mod radix = i / (radix * radix)).
  { apply Z.mod_small. split.
    - apply Z.div_pos; nia.
    - apply Z.div_lt_upper_bound; nia. }
  rewrite Hhigh.
  rewrite <- (Z.div_div i radix radix) by lia.
  pose proof (Z.div_mod i radix ltac:(lia)) as E1.
  pose proof (Z.div_mod (i / radix) radix ltac:(lia)) as E2.
  nia.
Qed.

(** C3. With a radix of at least two, index 0 is encoded as the colour
    (0,0,0), and decoding the encoding of a representable index (one of at
    most three digits) gives the index back. *)
Theorem C3_codec_round_trip :
  forall radix, 1 < radix ->
    pick.encode radix 0 = (0, 0, 0)
    /\ forall i, pick.representable radix i ->
         pick.decode radix (pick.encode radix i) = i.
Proof.
  intros radix Hr. split.
  - apply encode_zero.
  - intros i Hi. now apply decode_encode.
Qed.

Lemma C3_codec_round_trip_witness :
  1 < 2 ^ 22
  /\ pick.encode (2 ^ 22) 0 = (0, 0, 0)
  /\ pick.representable (2 ^ 22) 123456789012
  /\ pick.decode (2 ^ 22) (pick.encode (2 ^ 22) 123456789012) = 123456789012.
Proof.
  assert (H : 1 < 2 ^ 22) by reflexivity.
  destruct (C3_codec_round_trip (2 ^ 22) H) as [H0 Hrt].
  assert (Hrep : pick.representable (2 ^ 22) 123456789012)
    by (unfold pick.representable; lia).
  split; [exact H|]. split; [exact H0|]. split; [exact Hrep|].
  exact (Hrt _ Hrep).
Defined.

(** ** The pick buffer *)









(** ** The pick controller *)

(** C7. Whatever the selection was, a pick query whose pixel decodes to
    index 0 leaves no selection, and one whose pixel decodes to a non-zero
    index leaves selected what the index resolves to. *)
Theorem C7_pick_query_transition :
  forall radix owner rendered dbl xPos yPos g,
    let ind := pick.vecToInd radix
                 (rendered xPos (view.bufferHeight (vw g) - yPos)) in
    let g' := after (evaluatePickQuery radix owner rendered dbl xPos yPos g) in
    (exists g'', evaluatePickQuery radix owner rendered dbl xPos yPos g
                 = Return tt g'')
    /\ (ind = 0 -> selection g' = pick.NoSelection)
    /\ (ind <> 0 ->
        selection g' = pick.Selected (fst (owner ind)) (snd (owner ind))).
Proof.
  intros radix owner rendered dbl xPos yPos g ind g'.
  subst g'. unfold evaluatePickQuery, bind, get.
  fold ind.
  destruct (negb _ || negb _).
  - unfold allocatePickRenderbuffers, glGen, bind, modify, get. simpl.
    destruct (Z.eqb_spec ind 0) as [E | E]; simpl;
      (split; [eexists; reflexivity|]); split; intros H;
      first [reflexivity | contradiction].
  - unfold ret, modify. simpl.
    destruct (Z.eqb_spec ind 0) as [E | E]; simpl;
      (split; [eexists; reflexivity|]); split; intros H;
      first [reflexivity | contradiction].
Qed.

Lemma C7_pick_query_transition_witness :
  let g := set_selection (fun _ => pick.Selected 3 5)
             (initial (view.mk 1280 720 2560 1440)) in
  selection g = pick.Selected 3 5
  /\ selection (after (evaluatePickQuery 256 (fun i => (7%nat, i - 1))
                         (fun _ _ => (0, 0, 0)) false 10 10 g))
     = pick.NoSelection
  /\ selection (after (evaluatePickQuery 256 (fun i => (7%nat, i - 1))
                         (fun _ _ => (9, 1, 0)) false 10 10 g))
     = pick.Selected 7 264.
Proof.
  intros g. split; [reflexivity|]. split.
  - apply (C7_pick_query_transition 256 (fun i => (7%nat, i - 1))
             (fun _ _ => (0, 0, 0)) false 10 10 g). reflexivity.
  - apply (C7_pick_query_transition 256 (fun i => (7%nat, i - 1))
             (fun _ _ => (9, 1, 0)) false 10 10 g). vm_compute. discriminate.
Defined.

(** ** The colour palette *)

Lemma palette_next random i :
  0 <= random <= 4 -> i = -1 \/ 0 <= i <= 4 ->
  let j := if i =? -1 then random else i in
  palette.getNextPaletteColor random i
  = ((j + 1) mod 5, nth_error palette.paletteColors (Z.to_nat j))
  /\ 0 <= j <= 4.
Proof.
  intros Hr Hi j. unfold palette.getNextPaletteColor. fold j.
  assert (Hj : 0 <= j <= 4).
  { subst j. destruct (Z.eqb_spec i (-1)); lia. }
  split; [|exact Hj]. f_equal.
  - rewrite (Z.mod_small (j + 1)) by lia. reflexivity.
  - unfold palette.at_.
    replace (0 <=? j) with true by (symmetry; apply Z.leb_le; lia).
    replace (j <? palette.size) with true
      by (symmetry; apply Z.ltb_lt; change palette.size with 5; lia).
    reflexivity.
Qed.

Lemma palette_entry j :
  0 <= j <= 4 ->
  exists c, nth_error palette.paletteColors (Z.to_nat j) = Some c
            /\ In c palette.paletteColors.
Proof.
  intros Hj.
  destruct (nth_error palette.paletteColors (Z.to_nat j)) as [c|] eqn:E.
  - exists c. split; [reflexivity|]. eapply nth_error_In; eassumption.
  - apply nth_error_None in E. simpl in E. lia.
Qed.

Lemma palette_calls_cycle randoms :
  forall i k, 0 <= i <= 4 ->
    Forall (fun r => 0 <= r <= 4) randoms ->
    (k < List.length randoms)%nat ->
    nth_error (palette.calls randoms i) k
    = Some (nth_error palette.paletteColors
              (Z.to_nat ((i + Z.of_nat k) mod 5))).
Proof.
  induction randoms as [|r rest IH]; intros i k Hi Hall Hk; [simpl in Hk; lia|].
  inversion Hall as [|? ? Hr Hrest]; subst.
  cbn [palette.calls].
  destruct (palette_next r i Hr (or_intror Hi)) as [E _].
  replace (i =? -1) with false in E by (symmetry; apply Z.eqb_neq; lia).
  rewrite E.
  destruct k as [|k].
  - simpl. rewrite Z.add_0_r, Z.mod_small by lia. reflexivity.
  - simpl nth_error. rewrite IH;
      [|pose proof (Z.mod_pos_bound (i + 1) 5); lia|assumption|simpl in Hk; lia].
    do 3 f_equal.
    rewrite Zplus_mod_idemp_l. f_equal. lia.
Qed.

(** C10. Every call returns one of the five palette colours; the first
    call returns the entry drawn at random, and each later call the entry
    that follows the one returned before, the first following the
    fifth. *)
Theorem C10_palette_cycle :
  forall random randoms i,
    0 <= random <= 4 ->
    Forall (fun r => 0 <= r <= 4) randoms ->
    i = -1 \/ 0 <= i <= 4 ->
    (exists c, snd (palette.getNextPaletteColor random i) = Some c
               /\ In c palette.paletteColors)
    /\ 0 <= fst (palette.getNextPaletteColor random i) <= 4
    /\ (0 <= i ->
        palette.getNextPaletteColor random i
        = ((i + 1) mod 5, nth_error palette.paletteColors (Z.to_nat i)))
    /\ forall k, (k <= List.length randoms)%nat ->
         nth_error (palette.calls (random :: randoms) (-1)) k
         = Some (nth_error palette.paletteColors
                   (Z.to_nat ((random + Z.of_nat k) mod 5))).
Proof.
  intros random randoms i Hr Hall Hi.
  destruct (palette_next random i Hr Hi) as [E Hj].
  split; [|split; [|split]].
  - rewrite E. simpl. now apply palette_entry.
  - rewrite E. simpl.
    match goal with |- 0 <= ?a mod 5 <= 4 =>
      pose proof (Z.mod_pos_bound a 5); lia end.
  - intros Hpos. rewrite E.
    replace (i =? -1) with false by (symmetry; apply Z.eqb_neq; lia).
    reflexivity.
  - intros k Hk.
    destruct (palette_next random (-1) Hr (or_introl eq_refl)) as [E1 _].
    simpl in E1. cbn [palette.calls]. rewrite E1.
    destruct k as [|k].
    + simpl. rewrite Z.add_0_r, Z.mod_small by lia. reflexivity.
    + simpl nth_error.
      rewrite palette_calls_cycle;
        [|pose proof (Z.mod_pos_bound (random + 1) 5); lia|assumption|lia].
      do 3 f_equal. rewrite Zplus_mod_idemp_l. f_equal. lia.
Qed.

Lemma C10_palette_cycle_witness :
  0 <= 3 <= 4
  /\ palette.calls [3; 0; 0; 4; 1; 2; 2] (-1)
     = [ Some (255, 167, 38); Some (38, 198, 218); Some (171, 71, 188);
         Some (66, 165, 245); Some (38, 166, 154); Some (255, 167, 38);
         Some (38, 198, 218) ]
  /\ nth_error (palette.calls [3; 0; 0; 4; 1; 2; 2] (-1)) 6
     = Some (Some (38, 198, 218)).
Proof.
  assert (Hr : 0 <= 3 <= 4) by lia.
  assert (Hall : Forall (fun r => 0 <= r <= 4) [0; 0; 4; 1; 2; 2])
    by (repeat constructor; lia).
  destruct (C10_palette_cycle 3 [0; 0; 4; 1; 2; 2] (-1) Hr Hall
              (or_introl eq_refl)) as (_ & _ & _ & Hcycle).
  split; [exact Hr|]. split; [reflexivity|].
  exact (Hcycle 6%nat (le_n 6)).
Defined.

(** ** [removeStructure] and the selection *)

Lemma removeStructure_found name g t p :
  removeStructure_find name (st g) = Some (t, p) ->
  removeStructure name g
  = Return tt (run_statements (removeStructure_statements t name p) g).
Proof.
  intros H. unfold removeStructure, bind, get. rewrite H. reflexivity.
Qed.

Lemma removeStructure_not_found name g :
  removeStructure_find name (st g) = None ->
  removeStructure name g
  = error ("No structure named: " ++ name ++ " to remove.") g.
Proof.
  intros H. unfold removeStructure, bind, get. rewrite H. reflexivity.
Qed.

Lemma in_remove_other (a b : nat) l :
  In a l -> a <> b -> In a (List.remove Nat.eq_dec b l).
Proof. intros. now apply in_in_remove. Qed.

(** The globals between the statements of the branch, written out. *)
Lemma removeStructure_observable t name p g :
  observable (removeStructure_statements t name p) g
  = let g1 := set_selection (pick.clearPickIfStructureSelected p) g in
    let g2 := delete p g1 in
    let g3 := set_st (set_typedMap t (serase name)) g2 in
    let g4 := set_st (set_structureCategories (cat_update t (serase name))) g3 in
    [g; g1; g2; g3; g4; updateStructureExtents g4].
Proof. reflexivity. Qed.

(** C6. [removeStructure] on a name it finds: the selection that
    references the structure is cleared by the first statement, with the
    structure still allocated, and the structure is deleted by the second;
    so in each of the globals between the statements the selection, when
    there is one, references an allocated structure. A selection that
    references another structure is the same in all of them. *)
Theorem C6_selection_cleared_before_delete :
  forall name g t p,
    removeStructure_find name (st g) = Some (t, p) ->
    selection_live g ->
    let states := observable (removeStructure_statements t name p) g in
    removeStructure name g = Return tt (last states g)
    /\ (forall g', In g' states -> selection_live g')
    /\ (forall i, selection g = pick.Selected (Structure.addr p) i ->
          (forall g', In g' (tl states) -> selection g' = pick.NoSelection)
          /\ heap (nth 1 states g) = heap g
          /\ ~ In (Structure.addr p) (heap (nth 2 states g)))
    /\ (forall q i, selection g = pick.Selected q i -> q <> Structure.addr p ->
          forall g', In g' states -> selection g' = pick.Selected q i).
Proof.
  intros name g t p Hfind Hlive states.
  split; [|split; [|split]].
  - rewrite (removeStructure_found _ _ _ _ Hfind). f_equal.
  - intros g' Hin. subst states. rewrite removeStructure_observable in Hin.
    unfold selection_live in *.
    destruct (selection g) as [|q i] eqn:Hsel.
    + simpl in Hin.
      repeat (destruct Hin as [<- | Hin]; [simpl; rewrite ?Hsel; exact I|]).
      destruct Hin.
    + simpl in Hin. destruct Hin as [<- | Hin]; [rewrite Hsel; exact Hlive|].
      destruct (Nat.eqb_spec q (Structure.addr p)) as [E | E].
      * repeat (destruct Hin as [<- | Hin];
                [simpl; rewrite Hsel; simpl;
                 rewrite (proj2 (Nat.eqb_eq _ _) E); exact I|]).
        destruct Hin.
      * destruct Hin as [<- | Hin].
        { simpl. rewrite Hsel. simpl.
          rewrite (proj2 (Nat.eqb_neq _ _) E). exact Hlive. }
        repeat (destruct Hin as [<- | Hin];
                [simpl; rewrite Hsel; simpl;
                 rewrite (proj2 (Nat.eqb_neq _ _) E);
                 now apply in_remove_other|]).
        destruct Hin.
  - intros i Hsel. subst states. rewrite removeStructure_observable.
    split; [|split].
    + intros g' Hin. simpl in Hin.
      repeat (destruct Hin as [<- | Hin];
              [simpl; rewrite Hsel; simpl; now rewrite Nat.eqb_refl|]).
      destruct Hin.
    + reflexivity.
    + simpl. apply remove_In.
  - intros q i Hsel Hne g' Hin. subst states.
    rewrite removeStructure_observable in Hin. simpl in Hin.
    destruct Hin as [<- | Hin]; [exact Hsel|].
    repeat (destruct Hin as [<- | Hin];
            [simpl; rewrite Hsel; simpl;
             now rewrite (proj2 (Nat.eqb_neq _ _) Hne)|]).
    destruct Hin.
Qed.

Lemma C6_selection_cleared_before_delete_witness :
  selection selectedCloud = pick.Selected 0 5
  /\ selection_live selectedCloud
  /\ heap selectedCloud = [0%nat]
  /\ (forall g',
        In g' (observable
                 (removeStructure_statements PointCloud "a"
                    (Structure.mk 0 "a" PointCloud
                       (mkVector3 0 0 0, mkVector3 1 1 1) 1))
                 selectedCloud) ->
        selection_live g')
  /\ selection (after (removeStructure "a" selectedCloud)) = pick.NoSelection
  /\ heap (after (removeStructure "a" selectedCloud)) = [].
Proof.
  assert (Hfind : removeStructure_find "a" (st selectedCloud)
                  = Some (PointCloud,
                          Structure.mk 0 "a" PointCloud
                            (mkVector3 0 0 0, mkVector3 1 1 1) 1))
    by reflexivity.
  assert (Hlive : selection_live selectedCloud) by (left; reflexivity).
  destruct (C6_selection_cleared_before_delete "a" selectedCloud PointCloud _
              Hfind Hlive) as (Hret & Hall & _ & _).
  split; [reflexivity|]. split; [exact Hlive|]. split; [reflexivity|].
  split; [exact Hall|]. rewrite Hret. split; reflexivity.
Defined.

(** ** Errors *)

Lemma error_reported {A} message (k : M A) g :
  options.exceptionOnError (opts g) = true ->
  (error message ;;; k) g
  = Throw (logic_error (options.printPrefix (opts g) ++ message)) g.
Proof. intros H. unfold bind, error. now rewrite H. Qed.

Lemma error_logged {A} message (k : M A) g :
  options.exceptionOnError (opts g) = false ->
  (error message ;;; k) g
  = k (print (options.printPrefix (opts g) ++ message) g).
Proof. intros H. unfold bind, error. now rewrite H. Qed.

Lemma checkStructureNameInUse_loop_in_use name cats g :
  (exists cat, In cat cats /\ sfind name (snd cat) <> None) ->
  checkStructureNameInUse_loop name true cats g
  = (error ("Structure name " ++ name ++ " is already in use.") ;;; ret true) g.
Proof.
  induction cats as [|cat rest IH]; intros (c & Hin & Hc).
  - destruct Hin.
  - simpl. destruct (sfind name (snd cat)) eqn:E; [reflexivity|].
    apply IH. destruct Hin as [-> | Hin]; [congruence|eauto].
Qed.

Lemma checkStructureNameInUse_in_use name g :
  nameInUse name g ->
  checkStructureNameInUse name true g
  = (error ("Structure name " ++ name ++ " is already in use.") ;;; ret true) g.
Proof.
  intros H. unfold checkStructureNameInUse, bind at 1, get.
  now apply checkStructureNameInUse_loop_in_use.
Qed.

(** With [options::exceptionOnError] set, registering a name that is in
    use without permission to replace throws and changes nothing. *)
Lemma register_duplicate_throws t name geom g :
  options.exceptionOnError (opts g) = true ->
  nameInUse name g ->
  registerStructure t name geom false g
  = Throw (logic_error (options.printPrefix (opts g)
                        ++ "Structure name " ++ name ++ " is already in use."))
          g.
Proof.
  intros Hexc Huse. unfold registerStructure, bind at 1. simpl negb.
  rewrite (checkStructureNameInUse_in_use _ _ Huse).
  now rewrite error_reported.
Qed.

Lemma removeStructure_logged name g :
  options.exceptionOnError (opts g) = false ->
  exists g' rest,
    removeStructure name g = Return tt g'
    /\ cout g' = cout g ++ rest
    /\ opts g' = opts g.
Proof.
  intros Hlog. destruct (removeStructure_find name (st g)) as [[t p]|] eqn:E.
  - rewrite (removeStructure_found _ _ _ _ E).
    eexists. exists []. split; [reflexivity|]. now rewrite app_nil_r.
  - rewrite (removeStructure_not_found _ _ E). unfold error. rewrite Hlog.
    eexists. eexists. split; [reflexivity|]. split; reflexivity.
Qed.

(** Without [options::exceptionOnError], the same call prints the message
    and returns. *)
Lemma register_duplicate_logged t name geom g :
  options.exceptionOnError (opts g) = false ->
  nameInUse name g ->
  exists g' rest,
    registerStructure t name geom false g = Return tt g'
    /\ cout g'
       = cout g
         ++ (options.printPrefix (opts g)
             ++ "Structure name " ++ name ++ " is already in use.")%string
         :: rest.
Proof.
  intros Hlog Huse. unfold registerStructure, bind at 1. simpl negb.
  rewrite (checkStructureNameInUse_in_use _ _ Huse).
  rewrite error_logged by assumption. unfold ret at 1.
  set (line := (options.printPrefix (opts g) ++ _)%string).
  destruct (removeStructure_logged name (print line g) Hlog)
    as (g1 & rest & Hrem & Hcout & _).
  unfold bind at 1. rewrite Hrem.
  eexists. exists rest. split; [reflexivity|].
  simpl. rewrite Hcout. simpl. now rewrite <- app_assoc.
Qed.

Lemma getStructure_unknown t kind name g :
  sfind name (typedMap t (st g)) = None ->
  getStructure t kind name g
  = (error ("No " ++ kind ++ " with name " ++ name ++ " registered") ;;;
     ret None) g.
Proof.
  intros H. unfold getStructure, bind at 1, get. now rewrite H.
Qed.

(** C9, as stated, fails: with [options::exceptionOnError = false] a
    second [init] still throws; its message does not go through
    [error]. *)
Lemma C9_double_init_not_through_error :
  state.initialized (st initializedLogging) = true
  /\ options.exceptionOnError (opts initializedLogging) = false
  /\ init exampleEnv initializedLogging
     = Throw (logic_error "Polyscope: Initialize called twice")
             initializedLogging
  /\ ~ reported "Initialize called twice" initializedLogging
         (init exampleEnv initializedLogging).
Proof.
  split; [reflexivity|]. split; [reflexivity|]. split; [reflexivity|].
  unfold reported. simpl. intros (a & g' & rest & E & _).
  change (init exampleEnv initializedLogging)
    with (@Throw unit (logic_error "Polyscope: Initialize called twice")
                 initializedLogging) in E.
  discriminate E.
Qed.

(** C9, amended. A duplicate name without permission to replace, the
    lookup of an unknown name and the removal of an unknown name go
    through [error]: thrown when [options::exceptionOnError] is set, else
    printed, the call returning. A second [init] throws whatever the
    flag. The lookup and the removal of an unknown name and the second
    [init] leave the registry and the extent as they were, and so does the
    duplicate registration when it throws. *)
Theorem C9_misuse_errors :
  forall g,
    (forall t name geom,
        nameInUse name g ->
        let r := registerStructure t name geom false g in
        reported ("Structure name " ++ name ++ " is already in use.") g r
        /\ (options.exceptionOnError (opts g) = true -> after r = g))
    /\ (forall t kind name,
          sfind name (typedMap t (st g)) = None ->
          let r := getStructure t kind name g in
          reported ("No " ++ kind ++ " with name " ++ name ++ " registered") g r
          /\ st (after r) = st g
          /\ (options.exceptionOnError (opts g) = false ->
              exists g', r = Return None g'))
    /\ (forall name,
          removeStructure_find name (st g) = None ->
          let r := removeStructure name g in
          reported ("No structure named: " ++ name ++ " to remove.") g r
          /\ st (after r) = st g)
    /\ (forall env,
          state.initialized (st g) = true ->
          init env g
          = Throw (logic_error (options.printPrefix (opts g)
                                ++ "Initialize called twice")) g).
Proof.
  intros g. split; [|split; [|split]].
  - intros t name geom Huse r. subst r. unfold reported.
    destruct (options.exceptionOnError (opts g)) eqn:Hexc.
    + rewrite (register_duplicate_throws _ _ _ _ Hexc Huse). auto.
    + destruct (register_duplicate_logged t name geom g Hexc Huse)
        as (g' & rest & Hr & Hc).
      split; [|discriminate]. exists tt, g', rest. auto.
  - intros t kind name Hnone r. subst r.
    rewrite (getStructure_unknown _ _ _ _ Hnone). unfold reported.
    destruct (options.exceptionOnError (opts g)) eqn:Hexc.
    + rewrite error_reported by assumption. simpl.
      split; [reflexivity|]. split; [reflexivity|discriminate].
    + rewrite error_logged by assumption. unfold ret. simpl.
      split; [|split; [reflexivity|eauto]].
      eexists. eexists. exists []. split; reflexivity.
  - intros name Hnone r. subst r.
    rewrite (removeStructure_not_found _ _ Hnone). unfold reported, error.
    destruct (options.exceptionOnError (opts g)) eqn:Hexc.
    + auto.
    + split; [|reflexivity].
      eexists. eexists. exists []. split; reflexivity.
  - intros env Hinit. unfold init, bind at 1, get. now rewrite Hinit.
Qed.

Lemma C9_misuse_errors_witness :
  nameInUse "a" cloudLogging
  /\ removeStructure_find "b" (st cloudLogging) = None
  /\ cout (after (registerSurfaceMesh "a" farBox false cloudLogging))
     = ["Polyscope: Structure name a is already in use."%string]
  /\ removeStructure "b" cloudLogging
     = Return tt (print "Polyscope: No structure named: b to remove."
                        cloudLogging)
  /\ st (after (removeStructure "b" cloudLogging)) = st cloudLogging.
Proof.
  assert (Huse : nameInUse "a" cloudLogging).
  { eexists. split; [left; reflexivity|]. discriminate. }
  assert (Hnone : removeStructure_find "b" (st cloudLogging) = None)
    by reflexivity.
  destruct (C9_misuse_errors cloudLogging) as (_ & _ & Hrem & _).
  destruct (Hrem "b"%string Hnone) as (_ & Hst).
  split; [exact Huse|]. split; [exact Hnone|]. split; [reflexivity|].
  split; [reflexivity|]. exact Hst.
Defined.

(** ** Duplicate names *)

(** C2 at its failing input: the point cloud ["a"] is registered and
    [options::exceptionOnError] is off; registering ["a"] again with
    [replaceIfPresent = false] prints the error and then replaces the
    structure. *)
Theorem C2_duplicate_logged_replaces :
  let g := cloudLogging in
  let r := registerPointCloud "a" farBox false g in
  nameInUse "a" g
  /\ sfind "a" (state.pointClouds (st g))
     = Some (Structure.mk 0 "a" PointCloud
               (mkVector3 0 0 0, mkVector3 1 1 1) 1)
  /\ heap g = [0%nat]
  /\ (exists g', r = Return tt g')
  /\ cout (after r) = ["Polyscope: Structure name a is already in use."%string]
  /\ sfind "a" (state.pointClouds (st (after r)))
     = Some (Structure.mk 1 "a" PointCloud
               (mkVector3 2 2 2, mkVector3 3 3 3) 1)
  /\ heap (after r) = [1%nat]
  /\ state.boundingBox (st g) = (mkVector3 0 0 0, mkVector3 1 1 1)
  /\ state.boundingBox (st (after r)) = (mkVector3 2 2 2, mkVector3 3 3 3)
  /\ st (after r) <> st g.
Proof.
  intros g r.
  split. { eexists. split; [left; reflexivity|]. discriminate. }
  split; [reflexivity|]. split; [reflexivity|].
  split; [eexists; reflexivity|]. split; [reflexivity|].
  split; [reflexivity|]. split; [reflexivity|]. split; [reflexivity|].
  split; [reflexivity|].
  intros E. apply (f_equal state.pointClouds) in E.
  apply (f_equal (sfind "a")) in E. vm_compute in E. discriminate E.
Qed.

(** ** [removeAllStructures] *)

Lemma heap_delete_all m : forall g,
  st (delete_all m g) = st g
  /\ selection (delete_all m g) = selection g
  /\ cout (delete_all m g) = cout g.
Proof.
  induction m as [|x m IH]; intros g; [auto|].
  simpl. destruct (IH (delete (snd x) g)) as (E1 & E2 & E3).
  rewrite E1, E2, E3. auto.
Qed.

(** What [removeAllStructures] does on every registry: the category map
    and the typed maps of the point clouds and of the surface meshes are
    emptied, the extent is the one of the empty registry, nothing is
    selected; the typed maps of the camera views and of the ray sets are
    left as they were. *)
Lemma removeAllStructures_effect g :
  let g' := removeAllStructures g in
  state.structureCategories (st g') = []
  /\ state.pointClouds (st g') = []
  /\ state.surfaceMeshes (st g') = []
  /\ default_extent (st g')
  /\ selection g' = pick.NoSelection
  /\ state.cameraViews (st g') = state.cameraViews (st g)
  /\ state.raySets (st g') = state.raySets (st g).
Proof.
  unfold removeAllStructures.
  set (g1 := delete_all (state.pointClouds (st g)) g).
  set (g2 := delete_all (state.surfaceMeshes (st g1)) g1).
  destruct (heap_delete_all (state.pointClouds (st g)) g) as (E1 & _).
  destruct (heap_delete_all (state.surfaceMeshes (st g1)) g1) as (E2 & _).
  fold g1 in E1. fold g2 in E2.
  simpl. rewrite E2, E1. unfold default_extent. simpl.
  repeat split; reflexivity.
Qed.

(** C1 at its failing input: a registry that holds a camera view. After
    [removeAllStructures] the camera view is still allocated and still in
    its typed map, where [getCameraView] finds it, though no category
    holds it. *)
Theorem C1_removeAll_keeps_camera_views :
  let g := removeAllStructures oneCamera in
  let cam := Structure.mk 0 "cam" CameraView
               (mkVector3 0 0 0, mkVector3 1 1 1) 1 in
  state.structureCategories (st g) = []
  /\ state.cameraViews (st g) = [("cam"%string, cam)]
  /\ heap g = [0%nat]
  /\ getCameraView "cam" g = Return (Some cam) g
  /\ default_extent (st g)
  /\ selection g = pick.NoSelection.
Proof.
  intros g cam. unfold default_extent. repeat split; vm_compute; reflexivity.
Qed.

(** ** The registry invariant *)

(** C5 at its failing input: a camera view ["c"] is registered, all
    structures are removed, a point cloud ["c"] is registered. The name is
    then in two typed maps, for two allocated structures, and the typed
    map of the camera views disagrees with the category map. *)
Theorem C5_removeAll_breaks_invariant :
  let ops := [ Register CameraView "c" unitBox false;
               RemoveAll;
               Register PointCloud "c" farBox false ] in
  let g := run_ops ops (initial exampleView) in
  let cam := Structure.mk 0 "c" CameraView
               (mkVector3 0 0 0, mkVector3 1 1 1) 1 in
  let cloud := Structure.mk 1 "c" PointCloud
                 (mkVector3 2 2 2, mkVector3 3 3 3) 1 in
  sfind "c" (state.cameraViews (st g)) = Some cam
  /\ sfind "c" (state.pointClouds (st g)) = Some cloud
  /\ In (Structure.addr cam) (heap g)
  /\ In (Structure.addr cloud) (heap g)
  /\ state.structureCategories (st g) = [(PointCloud, [("c"%string, cloud)])]
  /\ ~ names_unique g
  /\ ~ maps_agree g
  /\ ~ maps_agree (run_ops (firstn 2 ops) (initial exampleView)).
Proof.
  intros ops g cam cloud.
  split; [vm_compute; reflexivity|]. split; [vm_compute; reflexivity|].
  split; [vm_compute; auto|]. split; [vm_compute; auto|].
  split; [vm_compute; reflexivity|]. split; [|split].
  - intros H. specialize (H CameraView PointCloud "c"%string).
    assert (E : CameraView = PointCloud)
      by (apply H; vm_compute; discriminate).
    discriminate E.
  - intros H. specialize (H CameraView "c"%string).
    vm_compute in H. discriminate H.
  - intros H. specialize (H CameraView "c"%string).
    vm_compute in H. discriminate H.
Qed.

(** ** The global extent *)

(** *** The order of binary64 *)

Ltac cmp_cases :=
  repeat match goal with
  | H : context [Z.compare ?a ?b] |- _ =>
      destruct (Z.compare_spec a b); try discriminate H
  | |- context [Z.compare ?a ?b] => destruct (Z.compare_spec a b)
  | H : context [Pos.compare ?a ?b] |- _ =>
      destruct (Pos.compare_spec a b); try discriminate H
  | |- context [Pos.compare ?a ?b] => destruct (Pos.compare_spec a b)
  end.

Lemma SFltb_trans a b c :
  SFltb a b = true -> SFltb b c = true -> SFltb a c = true.
Proof.
  unfold SFltb, SFcompare.
  destruct a as [[|]|[|]| |[|] ma ea], b as [[|]|[|]| |[|] mb eb],
           c as [[|]|[|]| |[|] mc ec];
    try discriminate; try reflexivity;
    change (Pos.compare_cont Eq) with Pos.compare;
    intros H1 H2; cmp_cases; subst; simpl in *;
    try discriminate; try reflexivity; try lia.
Qed.

Lemma SFltb_negtrans a b c :
  b <> S754_nan ->
  SFltb a b = false -> SFltb b c = false -> SFltb a c = false.
Proof.
  unfold SFltb, SFcompare.
  destruct a as [[|]|[|]| |[|] ma ea], b as [[|]|[|]| |[|] mb eb],
           c as [[|]|[|]| |[|] mc ec];
    try discriminate; try reflexivity; try congruence;
    change (Pos.compare_cont Eq) with Pos.compare;
    intros _ H1 H2; cmp_cases; subst; simpl in *;
    try discriminate; try reflexivity; try lia.
Qed.

Lemma SFltb_not_nan a b : SFltb a b = true -> b <> S754_nan.
Proof.
  unfold SFltb, SFcompare. intros H ->. destruct a; discriminate H.
Qed.

Lemma ltb_trans (a b c : float) :
  (a <? b)%float = true -> (b <? c)%float = true -> (a <? c)%float = true.
Proof. rewrite !ltb_spec. apply SFltb_trans. Qed.

Lemma ltb_negtrans (a b c : float) :
  number b ->
  (a <? b)%float = false -> (b <? c)%float = false -> (a <? c)%float = false.
Proof. unfold number. rewrite !ltb_spec. apply SFltb_negtrans. Qed.

Lemma ltb_number_r (a b : float) : (a <? b)%float = true -> number b.
Proof. unfold number. rewrite ltb_spec. apply SFltb_not_nan. Qed.

Lemma ltb_number_l (a b : float) : (a <? b)%float = true -> number a.
Proof.
  unfold number. rewrite ltb_spec. unfold SFltb, SFcompare.
  intros H E. rewrite E in H. discriminate H.
Qed.

Lemma ltb_irrefl (a : float) : (a <? a)%float = false.
Proof.
  rewrite ltb_spec. unfold SFltb, SFcompare.
  destruct (Prim2SF a) as [[|]|[|]| |[|] m e]; try reflexivity;
    rewrite Z.compare_refl; change (Pos.compare_cont Eq) with Pos.compare;
    rewrite Pos.compare_refl; reflexivity.
Qed.

(** *** Folds of [std::max] and [std::min] *)

Lemma fold_fmax_bound l : forall acc,
  number acc ->
  let m := fold_left fmax l acc in
  number m
  /\ (m <? acc)%float = false
  /\ (forall v, In v l -> (m <? v)%float = false)
  /\ (m = acc \/ In m l).
Proof.
  induction l as [|y l IH]; intros acc Hacc; simpl.
  - split; [assumption|]. split; [apply ltb_irrefl|]. split; [tauto|auto].
  - assert (Hacc1 : number (fmax acc y)).
    { unfold fmax. destruct (acc <? y)%float eqn:E; [|assumption].
      eapply ltb_number_r; eassumption. }
    destruct (IH (fmax acc y) Hacc1) as (Hm & Hge & Hall & Hin).
    set (m := fold_left fmax l (fmax acc y)) in *.
    unfold fmax in Hge, Hin. destruct (acc <? y)%float eqn:E.
    + split; [assumption|]. split; [|split].
      * destruct (m <? acc)%float eqn:F; [|reflexivity].
        rewrite (ltb_trans _ _ _ F E) in Hge. discriminate Hge.
      * intros v [<- | Hv]; [assumption|auto].
      * destruct Hin as [-> | Hin]; auto.
    + split; [assumption|]. split; [assumption|]. split.
      * intros v [<- | Hv]; [|auto]. now apply (ltb_negtrans m acc y).
      * destruct Hin as [-> | Hin]; auto.
Qed.

Lemma fold_fmin_bound l : forall acc,
  number acc ->
  let m := fold_left fmin l acc in
  number m
  /\ (acc <? m)%float = false
  /\ (forall v, In v l -> (v <? m)%float = false)
  /\ (m = acc \/ In m l).
Proof.
  induction l as [|y l IH]; intros acc Hacc; simpl.
  - split; [assumption|]. split; [apply ltb_irrefl|]. split; [tauto|auto].
  - assert (Hacc1 : number (fmin acc y)).
    { unfold fmin. destruct (y <? acc)%float eqn:E; [|assumption].
      eapply ltb_number_l; eassumption. }
    destruct (IH (fmin acc y) Hacc1) as (Hm & Hge & Hall & Hin).
    set (m := fold_left fmin l (fmin acc y)) in *.
    unfold fmin in Hge, Hin. destruct (y <? acc)%float eqn:E.
    + split; [assumption|]. split; [|split].
      * destruct (acc <? m)%float eqn:F; [|reflexivity].
        rewrite (ltb_trans _ _ _ E F) in Hge. discriminate Hge.
      * intros v [<- | Hv]; [assumption|auto].
      * destruct Hin as [-> | Hin]; auto.
    + split; [assumption|]. split; [assumption|]. split.
      * intros v [<- | Hv]; [|auto]. now apply (ltb_negtrans y acc m).
      * destruct Hin as [-> | Hin]; auto.
Qed.

(** *** The loops of [updateStructureExtents] are the three folds *)

Lemma fold_extents_step l : forall ls mn mx,
  fold_left extents_step l (ls, mn, mx)
  = (fold_left fmax (map Structure.lengthScale l) ls,
     fold_left componentwiseMin
               (map (fun s => fst (Structure.boundingBox s)) l) mn,
     fold_left componentwiseMax
               (map (fun s => snd (Structure.boundingBox s)) l) mx).
Proof.
  induction l as [|a l IH]; intros ls mn mx; [reflexivity|].
  simpl. apply IH.
Qed.

Lemma extents_loop_flat cats : forall acc,
  extents_loop cats acc
  = fold_left extents_step
              (flat_map (fun cat => stdmap.values (snd cat)) cats) acc.
Proof.
  unfold extents_loop.
  induction cats as [|cat cats IH]; intros acc; [reflexivity|].
  simpl. rewrite fold_left_app. apply IH.
Qed.

Lemma fold_componentwiseMin l : forall acc,
  fold_left componentwiseMin l acc
  = mkVector3 (fold_left fmin (map x l) (x acc))
              (fold_left fmin (map y l) (y acc))
              (fold_left fmin (map z l) (z acc)).
Proof.
  induction l as [|v l IH]; intros acc; [now destruct acc|].
  simpl. now rewrite IH.
Qed.

Lemma fold_componentwiseMax l : forall acc,
  fold_left componentwiseMax l acc
  = mkVector3 (fold_left fmax (map x l) (x acc))
              (fold_left fmax (map y l) (y acc))
              (fold_left fmax (map z l) (z acc)).
Proof.
  induction l as [|v l IH]; intros acc; [now destruct acc|].
  simpl. now rewrite IH.
Qed.

Lemma updateStructureExtents_fields s :
  let s' := updateStructureExtents_state s in
  let l := liveStructures s in
  state.lengthScale s' = extent_spec.lengthScale l
  /\ state.boundingBox s' = extent_spec.boundingBox l
  /\ state.center s' = extent_spec.center l.
Proof.
  unfold updateStructureExtents_state, extent_spec.lengthScale,
    extent_spec.center, extent_spec.boundingBox.
  rewrite extents_loop_flat, fold_extents_step.
  fold (liveStructures s).
  change (scale ones infinity) with (mkVector3 infinity infinity infinity).
  change (scale (neg ones) infinity)
    with (mkVector3 neg_infinity neg_infinity neg_infinity).
  fold (extent_spec.foldedMin (liveStructures s)).
  fold (extent_spec.foldedMax (liveStructures s)).
  fold (extent_spec.foldedLengthScale (liveStructures s)).
  destruct (isFinite (extent_spec.foldedMin (liveStructures s)));
    destruct (isFinite (extent_spec.foldedMax (liveStructures s)));
    simpl; auto.
Qed.

Lemma number_zero : number 0.
Proof. unfold number. vm_compute. discriminate. Qed.
Lemma number_infinity : number infinity.
Proof. unfold number. vm_compute. discriminate. Qed.
Lemma number_neg_infinity : number neg_infinity.
Proof. unfold number. vm_compute. discriminate. Qed.

(** C4. [updateStructureExtents] leaves as length scale, bounding box and
    centre what the specification describes: the folds over the live
    structures, the reset of a non-finite box to [(-1,-1,-1),(1,1,1)],
    the norm of the diagonal for a length scale of zero, the midpoint of
    the corners. The folded length scale is not below zero nor below the
    length scale of any live structure, and is zero or one of them; no
    live structure has a coordinate of its lower corner below the folded
    lower corner, nor one of its upper corner above the folded upper
    corner. An empty registry gives the default extent, and two
    structures with the boxes [0,0,0]-[1,1,1] and [2,2,2]-[3,3,3] give the
    box [0,0,0]-[3,3,3] and the centre (1.5,1.5,1.5). *)
Theorem C4_extent_recomputed :
  forall s,
    let s' := updateStructureExtents_state s in
    let l := liveStructures s in
    state.lengthScale s' = extent_spec.lengthScale l
    /\ state.boundingBox s' = extent_spec.boundingBox l
    /\ state.center s' = extent_spec.center l
    /\ (extent_spec.foldedLengthScale l <? 0)%float = false
    /\ (forall a, In a l ->
          (extent_spec.foldedLengthScale l <? Structure.lengthScale a)%float
          = false)
    /\ (extent_spec.foldedLengthScale l = 0%float
        \/ In (extent_spec.foldedLengthScale l) (map Structure.lengthScale l))
    /\ (forall a, In a l ->
          let lo := fst (Structure.boundingBox a) in
          let hi := snd (Structure.boundingBox a) in
          (x lo <? x (extent_spec.foldedMin l))%float = false
          /\ (y lo <? y (extent_spec.foldedMin l))%float = false
          /\ (z lo <? z (extent_spec.foldedMin l))%float = false
          /\ (x (extent_spec.foldedMax l) <? x hi)%float = false
          /\ (y (extent_spec.foldedMax l) <? y hi)%float = false
          /\ (z (extent_spec.foldedMax l) <? z hi)%float = false)
    /\ (l = [] -> default_extent s')
    /\ (forall a b,
          l = [a; b] ->
          Structure.boundingBox a = (mkVector3 0 0 0, mkVector3 1 1 1) ->
          Structure.boundingBox b = (mkVector3 2 2 2, mkVector3 3 3 3) ->
          state.boundingBox s' = (mkVector3 0 0 0, mkVector3 3 3 3)
          /\ state.center s' = mkVector3 1.5 1.5 1.5).
Proof.
  intros s s' l.
  destruct (updateStructureExtents_fields s) as (Hls & Hbb & Hc).
  fold s' in Hls, Hbb, Hc. fold l in Hls, Hbb, Hc.
  destruct (fold_fmax_bound (map Structure.lengthScale l) 0%float number_zero)
    as (_ & Hge0 & Hmax & Hin).
  split; [exact Hls|]. split; [exact Hbb|]. split; [exact Hc|].
  split; [exact Hge0|]. split; [|split; [exact Hin|split; [|split]]].
  - intros a Ha. apply Hmax. now apply in_map.
  - intros a Ha lo hi. unfold extent_spec.foldedMin, extent_spec.foldedMax.
    rewrite fold_componentwiseMin, fold_componentwiseMax. simpl.
    rewrite !map_map.
    repeat split.
    + apply (fold_fmin_bound _ _ number_infinity).
      apply (in_map (fun s => x (fst (Structure.boundingBox s)))) in Ha. exact Ha.
    + apply (fold_fmin_bound _ _ number_infinity).
      apply (in_map (fun s => y (fst (Structure.boundingBox s)))) in Ha. exact Ha.
    + apply (fold_fmin_bound _ _ number_infinity).
      apply (in_map (fun s => z (fst (Structure.boundingBox s)))) in Ha. exact Ha.
    + apply (fold_fmax_bound _ _ number_neg_infinity).
      apply (in_map (fun s => x (snd (Structure.boundingBox s)))) in Ha. exact Ha.
    + apply (fold_fmax_bound _ _ number_neg_infinity).
      apply (in_map (fun s => y (snd (Structure.boundingBox s)))) in Ha. exact Ha.
    + apply (fold_fmax_bound _ _ number_neg_infinity).
      apply (in_map (fun s => z (snd (Structure.boundingBox s)))) in Ha. exact Ha.
  - intros E. unfold default_extent. rewrite Hls, Hbb, Hc, E.
    repeat split; reflexivity.
  - intros a b E Ha Hb. rewrite Hbb, Hc, E.
    unfold extent_spec.center, extent_spec.boundingBox,
      extent_spec.foldedMin, extent_spec.foldedMax.
    simpl. rewrite Ha, Hb. split; reflexivity.
Qed.

Lemma C4_extent_recomputed_witness :
  liveStructures (st twoBoxes)
  = [ Structure.mk 0 "A" PointCloud (mkVector3 0 0 0, mkVector3 1 1 1) 1;
      Structure.mk 1 "B" SurfaceMesh (mkVector3 2 2 2, mkVector3 3 3 3) 1 ]
  /\ state.boundingBox (updateStructureExtents_state (st twoBoxes))
     = (mkVector3 0 0 0, mkVector3 3 3 3)
  /\ state.center (updateStructureExtents_state (st twoBoxes))
     = mkVector3 1.5 1.5 1.5
  /\ state.boundingBox (st twoBoxes) = (mkVector3 0 0 0, mkVector3 3 3 3)
  /\ state.center (st twoBoxes) = mkVector3 1.5 1.5 1.5
  /\ state.lengthScale (st twoBoxes) = 1%float.
Proof.
  assert (E : liveStructures (st twoBoxes)
              = [ Structure.mk 0 "A" PointCloud
                    (mkVector3 0 0 0, mkVector3 1 1 1) 1;
                  Structure.mk 1 "B" SurfaceMesh
                    (mkVector3 2 2 2, mkVector3 3 3 3) 1 ])
    by (vm_compute; reflexivity).
  destruct (C4_extent_recomputed (st twoBoxes))
    as (_ & _ & _ & _ & _ & _ & _ & _ & Hex).
  destruct (Hex _ _ E eq_refl eq_refl) as (Hbox & Hcenter).
  split; [exact E|]. split; [exact Hbox|]. split; [exact Hcenter|].
  repeat split; vm_compute; reflexivity.
Defined.

(** ** The registry invariant under register and remove *)

Section MapFacts.
Context {K V : Type}.
Variable cmp : K -> K -> comparison.
Hypothesis cmp_eq : forall a b, cmp a b = Eq <-> a = b.

Lemma find_assign_same k (v : V) m :
  stdmap.find cmp k (stdmap.assign cmp k v m) = Some v.
Proof.
  induction m as [|[k' v'] m IH]; simpl.
  - now rewrite (proj2 (cmp_eq k k) eq_refl).
  - destruct (cmp k k') eqn:E; simpl.
    + now rewrite E.
    + now rewrite (proj2 (cmp_eq k k) eq_refl).
    + now rewrite E.
Qed.

Lemma find_assign_other k k' (v : V) m :
  k' <> k ->
  stdmap.find cmp k' (stdmap.assign cmp k v m) = stdmap.find cmp k' m.
Proof.
  intros Hne.
  assert (Hk : cmp k' k <> Eq) by (intros E; apply Hne; now apply cmp_eq).
  induction m as [|[k'' v''] m IH]; simpl.
  - destruct (cmp k' k); congruence.
  - destruct (cmp k k'') eqn:E; simpl.
    + apply cmp_eq in E. subst k''. destruct (cmp k' k); congruence.
    + destruct (cmp k' k); congruence.
    + now rewrite IH.
Qed.

Lemma find_erase_same k (m : list (K * V)) :
  stdmap.find cmp k (stdmap.erase cmp k m) = None.
Proof.
  induction m as [|[k' v'] m IH]; simpl; [reflexivity|].
  destruct (cmp k k') eqn:E; simpl; rewrite ?E; assumption.
Qed.

Lemma find_erase_other k k' (m : list (K * V)) :
  k' <> k ->
  stdmap.find cmp k' (stdmap.erase cmp k m) = stdmap.find cmp k' m.
Proof.
  intros Hne. induction m as [|[k'' v''] m IH]; simpl; [reflexivity|].
  destruct (cmp k k'') eqn:E; simpl.
  - apply cmp_eq in E. subst k''.
    destruct (cmp k' k) eqn:F; [apply cmp_eq in F; contradiction| |];
      assumption.
  - now rewrite IH.
  - now rewrite IH.
Qed.

Lemma find_in k (v : V) m :
  stdmap.find cmp k m = Some v -> exists k', In (k', v) m.
Proof.
  induction m as [|[k' v'] m IH]; simpl; [discriminate|].
  destruct (cmp k k').
  - intros [= ->]. eauto.
  - intros H. destruct (IH H) as [k'' Hin]. eauto.
  - intros H. destruct (IH H) as [k'' Hin]. eauto.
Qed.
End MapFacts.

Lemma string_compare_eq a b : String.compare a b = Eq <-> a = b.
Proof.
  split; [apply String.compare_eq_iff|]. intros <-.
  induction a as [|c a IH]; simpl; [reflexivity|].
  replace (Ascii.compare c c) with Eq; [assumption|].
  symmetry. unfold Ascii.compare. apply N.compare_refl.
Qed.

Lemma StructureType_compare_eq a b : StructureType_compare a b = Eq <-> a = b.
Proof.
  unfold StructureType_compare. rewrite Nat.compare_eq_iff.
  destruct a, b; simpl; split; intros H; congruence.
Qed.

Lemma cat_at_update_same t f c : cat_at t (cat_update t f c) = f (cat_at t c).
Proof.
  unfold cat_update. unfold cat_at at 1.
  now rewrite (find_assign_same _ StructureType_compare_eq).
Qed.

Lemma cat_at_update_other t t' f c :
  t' <> t -> cat_at t' (cat_update t f c) = cat_at t' c.
Proof.
  intros Hne. unfold cat_update, cat_at.
  now rewrite (find_assign_other _ StructureType_compare_eq).
Qed.

Lemma typedMap_set_same t f s : typedMap t (set_typedMap t f s) = f (typedMap t s).
Proof. now destruct t. Qed.

Lemma typedMap_set_other t t' f s :
  t' <> t -> typedMap t' (set_typedMap t f s) = typedMap t' s.
Proof. destruct t, t'; intros H; try reflexivity; congruence. Qed.

Lemma StructureType_eq_dec (a b : StructureType) : {a = b} + {a <> b}.
Proof. decide equality. Qed.

(** The two parts of the invariant, on the registry alone. *)
Lemma invariant_of_state g g' :
  st g' = st g ->
  names_unique g /\ maps_agree g -> names_unique g' /\ maps_agree g'.
Proof.
  unfold names_unique, maps_agree. intros E. now rewrite E.
Qed.

(** [updateStructureExtents] writes the extent and nothing else. *)
Lemma updateStructureExtents_maps s :
  state.structureCategories (updateStructureExtents_state s)
  = state.structureCategories s
  /\ (forall t, typedMap t (updateStructureExtents_state s) = typedMap t s)
  /\ state.initialized (updateStructureExtents_state s) = state.initialized s.
Proof.
  unfold updateStructureExtents_state.
  destruct (extents_loop _ _) as [[ls mn] mx].
  destruct (negb (isFinite mn) || negb (isFinite mx)); simpl;
    (split; [reflexivity|split; [intros []; reflexivity|reflexivity]]).
Qed.

(** Erasing a name from the typed map and the category it was found in. *)
Lemma invariant_removeStructure_statements t name p g :
  names_unique g /\ maps_agree g ->
  sfind name (typedMap t (st g)) <> None ->
  let g' := run_statements (removeStructure_statements t name p) g in
  (names_unique g' /\ maps_agree g')
  /\ forall t', sfind name (typedMap t' (st g')) = None.
Proof.
  intros [Huniq Hagree] Hhas g'.
  assert (Htyped : forall t' n,
             sfind n (typedMap t' (st g'))
             = if StructureType_eq_dec t' t
               then sfind n (serase name (typedMap t (st g)))
               else sfind n (typedMap t' (st g))).
  { intros t' n. subst g'. unfold run_statements. simpl.
    rewrite (proj1 (proj2 (updateStructureExtents_maps _))).
    destruct (StructureType_eq_dec t' t) as [-> | Hne].
    - now destruct t.
    - destruct t, t'; try reflexivity; congruence. }
  assert (Hcat : forall t' n,
             sfind n (cat_at t' (state.structureCategories (st g')))
             = if StructureType_eq_dec t' t
               then sfind n (serase name
                               (cat_at t (state.structureCategories (st g))))
               else sfind n (cat_at t' (state.structureCategories (st g)))).
  { intros t' n. subst g'. unfold run_statements. simpl.
    rewrite (proj1 (updateStructureExtents_maps _)). simpl.
    replace (state.structureCategories (set_typedMap t (serase name) (st g)))
      with (state.structureCategories (st g)) by now destruct t.
    destruct (StructureType_eq_dec t' t) as [-> | Hne].
    - now rewrite cat_at_update_same.
    - now rewrite cat_at_update_other. }
  assert (Herase : forall n m,
             sfind n (serase name m)
             = if string_dec n name then None else sfind n m).
  { intros n m. unfold sfind, serase. destruct (string_dec n name) as [-> | Hne].
    - apply find_erase_same.
    - now apply (find_erase_other _ string_compare_eq). }
  split; [split|].
  - intros t1 t2 n H1 H2. rewrite Htyped, Herase in H1, H2.
    apply (Huniq t1 t2 n).
    + destruct (StructureType_eq_dec t1 t) as [-> |]; [|assumption].
      destruct (string_dec n name); congruence.
    + destruct (StructureType_eq_dec t2 t) as [-> |]; [|assumption].
      destruct (string_dec n name); congruence.
  - intros t' n. rewrite Htyped, Hcat, !Herase.
    destruct (StructureType_eq_dec t' t) as [-> |]; [|apply Hagree].
    destruct (string_dec n name); [reflexivity|apply Hagree].
  - intros t'. rewrite Htyped, Herase.
    destruct (StructureType_eq_dec t' t) as [-> | Hne].
    + destruct (string_dec name name); congruence.
    + destruct (sfind name (typedMap t' (st g))) eqn:E; [|reflexivity].
      exfalso. apply Hne. apply (Huniq t' t name); congruence.
Qed.

Lemma removeStructure_find_typed name s t p :
  removeStructure_find name s = Some (t, p) ->
  sfind name (typedMap t s) = Some p.
Proof.
  unfold removeStructure_find.
  destruct (sfind name (state.pointClouds s)) eqn:E1; [now intros [= <- <-]|].
  destruct (sfind name (state.surfaceMeshes s)) eqn:E2; [now intros [= <- <-]|].
  destruct (sfind name (state.cameraViews s)) eqn:E3; [now intros [= <- <-]|].
  destruct (sfind name (state.raySets s)) eqn:E4; [now intros [= <- <-]|].
  discriminate.
Qed.

Lemma removeStructure_find_none name s :
  removeStructure_find name s = None ->
  forall t, sfind name (typedMap t s) = None.
Proof.
  unfold removeStructure_find.
  destruct (sfind name (state.pointClouds s)) eqn:E1; [discriminate|].
  destruct (sfind name (state.surfaceMeshes s)) eqn:E2; [discriminate|].
  destruct (sfind name (state.cameraViews s)) eqn:E3; [discriminate|].
  destruct (sfind name (state.raySets s)) eqn:E4; [discriminate|].
  intros _ []; assumption.
Qed.

(** [removeStructure] keeps the invariant; when it returns, the name is
    in no typed map. *)
Lemma invariant_removeStructure name g :
  names_unique g /\ maps_agree g ->
  let r := removeStructure name g in
  (names_unique (after r) /\ maps_agree (after r))
  /\ forall a g', r = Return a g' ->
       forall t, sfind name (typedMap t (st g')) = None.
Proof.
  intros Hinv r. subst r.
  destruct (removeStructure_find name (st g)) as [[t p]|] eqn:E.
  - rewrite (removeStructure_found _ _ _ _ E).
    pose proof (removeStructure_find_typed _ _ _ _ E) as Hp.
    destruct (invariant_removeStructure_statements t name p g Hinv) as [H1 H2];
      [congruence|].
    split; [exact H1|]. intros a g' E'. injection E' as _ <-. exact H2.
  - rewrite (removeStructure_not_found _ _ E). unfold error.
    destruct (options.exceptionOnError (opts g)); simpl.
    + split; [assumption|]. intros a g' E'. discriminate E'.
    + split; [now apply (invariant_of_state g)|].
      intros a g' E'. injection E' as _ <-. simpl.
      now apply removeStructure_find_none.
Qed.

Lemma checkStructureNameInUse_cases name throwError g :
  let r := checkStructureNameInUse name throwError g in
  (r = Return false g
   /\ forall cat, In cat (state.structureCategories (st g)) ->
                  sfind name (snd cat) = None)
  \/ (exists g', r = Return true g' /\ st g' = st g)
  \/ (exists e, r = Throw e g).
Proof.
  unfold checkStructureNameInUse, bind, get.
  induction (state.structureCategories (st g)) as [|cat rest IH]; simpl.
  - left. split; [reflexivity|]. intros cat [].
  - destruct (sfind name (snd cat)) eqn:E.
    + right. unfold bind, error, ret. destruct throwError; [|eauto].
      destruct (options.exceptionOnError (opts g)); eauto.
    + destruct IH as [[Hr Hnone] | IH]; [|auto].
      left. split; [assumption|]. intros c [<- | Hin]; auto.
Qed.

Lemma sfind_sassign n n' p m :
  sfind n' (sassign n p m) = if string_dec n' n then Some p else sfind n' m.
Proof.
  unfold sfind, sassign. destruct (string_dec n' n) as [-> | Hne].
  - apply (find_assign_same _ string_compare_eq).
  - now apply (find_assign_other _ string_compare_eq).
Qed.

(** The statements of a register function after the check: a name that
    is in no typed map is stored, and the invariant is kept. *)
Lemma invariant_register_statements t name geom g :
  names_unique g /\ maps_agree g ->
  (forall t', sfind name (typedMap t' (st g)) = None) ->
  let r := (p <- new t name geom ;;
            modify (set_st (set_typedMap t (sassign name p))) ;;;
            modify (set_st (set_structureCategories
                              (cat_update t (sassign name p)))) ;;;
            modify updateStructureExtents) g in
  (exists g', r = Return tt g')
  /\ names_unique (after r) /\ maps_agree (after r).
Proof.
  intros [Huniq Hagree] Hfree r. subst r.
  unfold bind, new, modify. simpl.
  split; [eexists; reflexivity|].
  set (p := Structure.mk (nextAddr g) name t (geomBoundingBox geom)
                         (geomLengthScale geom)).
  assert (Htyped : forall t' n,
             sfind n (typedMap t'
                        (updateStructureExtents_state
                           (set_structureCategories
                              (cat_update t (sassign name p))
                              (set_typedMap t (sassign name p) (st g)))))
             = if StructureType_eq_dec t' t
               then (if string_dec n name then Some p
                     else sfind n (typedMap t (st g)))
               else sfind n (typedMap t' (st g))).
  { intros t' n. rewrite (proj1 (proj2 (updateStructureExtents_maps _))).
    destruct (StructureType_eq_dec t' t) as [-> | Hne].
    - rewrite <- sfind_sassign. now destruct t.
    - destruct t, t'; try reflexivity; congruence. }
  assert (Hcat : forall t' n,
             sfind n (cat_at t'
                        (state.structureCategories
                           (updateStructureExtents_state
                              (set_structureCategories
                                 (cat_update t (sassign name p))
                                 (set_typedMap t (sassign name p) (st g))))))
             = if StructureType_eq_dec t' t
               then (if string_dec n name then Some p
                     else sfind n (cat_at t (state.structureCategories (st g))))
               else sfind n (cat_at t' (state.structureCategories (st g)))).
  { intros t' n. rewrite (proj1 (updateStructureExtents_maps _)). simpl.
    replace (state.structureCategories (set_typedMap t (sassign name p) (st g)))
      with (state.structureCategories (st g)) by now destruct t.
    destruct (StructureType_eq_dec t' t) as [-> | Hne].
    - now rewrite cat_at_update_same, sfind_sassign.
    - now rewrite cat_at_update_other. }
  split.
  - intros t1 t2 n H1 H2. simpl in H1, H2. rewrite Htyped in H1, H2.
    destruct (string_dec n name) as [-> | Hn].
    + destruct (StructureType_eq_dec t1 t) as [-> |];
        [|rewrite Hfree in H1; congruence].
      destruct (StructureType_eq_dec t2 t) as [-> |];
        [reflexivity|rewrite Hfree in H2; congruence].
    + apply (Huniq t1 t2 n).
      * now destruct (StructureType_eq_dec t1 t) as [-> |].
      * now destruct (StructureType_eq_dec t2 t) as [-> |].
  - intros t' n. simpl. rewrite Htyped, Hcat.
    destruct (StructureType_eq_dec t' t) as [-> |]; [|apply Hagree].
    destruct (string_dec n name); [reflexivity|apply Hagree].
Qed.

Lemma cat_at_in t c :
  cat_at t c = [] \/ exists t', In (t', cat_at t c) c.
Proof.
  unfold cat_at.
  destruct (stdmap.find StructureType_compare t c) as [m|] eqn:E; [|auto].
  right. eapply find_in. eassumption.
Qed.

Lemma registerStructure_steps t name geom replaceIfPresent g :
  registerStructure t name geom replaceIfPresent g
  = match checkStructureNameInUse name (negb replaceIfPresent) g with
    | Return inUse g' =>
        match (if inUse : bool then removeStructure name else ret tt) g' with
        | Return _ g'' =>
            (p <- new t name geom ;;
             modify (set_st (set_typedMap t (sassign name p))) ;;;
             modify (set_st (set_structureCategories
                               (cat_update t (sassign name p)))) ;;;
             modify updateStructureExtents) g''
        | Throw e g'' => Throw e g''
        end
    | Throw e g' => Throw e g'
    end.
Proof. reflexivity. Qed.

(** A register function keeps the invariant. *)
Lemma invariant_registerStructure t name geom replaceIfPresent g :
  names_unique g /\ maps_agree g ->
  let r := registerStructure t name geom replaceIfPresent g in
  names_unique (after r) /\ maps_agree (after r).
Proof.
  intros Hinv r. subst r. rewrite registerStructure_steps.
  destruct (checkStructureNameInUse_cases name (negb replaceIfPresent) g)
    as [[Hr Hnone] | [(g' & Hr & Hst) | (e & Hr)]]; rewrite Hr.
  - unfold ret.
    apply (invariant_register_statements t name geom g Hinv).
    intros t'. rewrite (proj2 Hinv).
    destruct (cat_at_in t' (state.structureCategories (st g)))
      as [-> | (t'' & Hin)]; [reflexivity|].
    apply (Hnone _ Hin).
  - pose proof (invariant_of_state g g' Hst Hinv) as Hinv'.
    destruct (invariant_removeStructure name g' Hinv') as [Hafter Hfree].
    destruct (removeStructure name g') as [[] g1 | e g1] eqn:Hrem.
    + apply (invariant_register_statements t name geom g1 Hafter).
      now apply (Hfree tt g1).
    + exact Hafter.
  - exact Hinv.
Qed.

Lemma invariant_initial v : names_unique (initial v) /\ maps_agree (initial v).
Proof.
  split.
  - intros t1 t2 n H1. now destruct t1.
  - intros t n. now destruct t.
Qed.

(** From a registry where the invariant holds, and so from the empty one,
    the invariant holds after each operation of a sequence of registers
    and removes. *)
Theorem invariant_register_remove ops : forall g,
  Forall register_or_remove ops ->
  names_unique g /\ maps_agree g ->
  forall k, names_unique (run_ops (firstn k ops) g)
            /\ maps_agree (run_ops (firstn k ops) g).
Proof.
  induction ops as [|op ops IH]; intros g Hops Hinv k.
  - now rewrite firstn_nil.
  - destruct k as [|k]; [assumption|].
    inversion Hops as [|? ? Hop Hrest]; subst.
    simpl. apply IH; [assumption|].
    destruct op as [t name geom replaceIfPresent | name |]; simpl.
    + now apply invariant_registerStructure.
    + now apply invariant_removeStructure.
    + destruct Hop.
Qed.

Lemma invariant_register_remove_witness :
  let ops := [ Register PointCloud "a" unitBox false;
               Register SurfaceMesh "b" farBox false;
               Register CameraView "a" farBox true;
               Remove "b";
               Register RaySet "b" unitBox false ] in
  let g := logAndContinue (initial exampleView) in
  Forall register_or_remove ops
  /\ (names_unique g /\ maps_agree g)
  /\ forall k, names_unique (run_ops (firstn k ops) g)
               /\ maps_agree (run_ops (firstn k ops) g).
Proof.
  intros ops g.
  assert (Hops : Forall register_or_remove ops)
    by (repeat constructor).
  assert (Hinv : names_unique g /\ maps_agree g).
  { split.
    - intros t1 t2 n H1. now destruct t1.
    - intros t n. now destruct t. }
  split; [exact Hops|]. split; [exact Hinv|].
  exact (invariant_register_remove ops g Hops Hinv).
Defined.

(** * Further properties of the registry *)

(** ** [checkStructureNameInUse] *)

Lemma checkStructureNameInUse_loop_free name throwError cats g :
  (forall cat, In cat cats -> sfind name (snd cat) = None) ->
  checkStructureNameInUse_loop name throwError cats g = Return false g.
Proof.
  induction cats as [|cat rest IH]; intros H; [reflexivity|].
  simpl. rewrite (H cat (or_introl eq_refl)). apply IH.
  intros c Hc. apply H. now right.
Qed.

Lemma checkStructureNameInUse_loop_quiet name cats g :
  (exists cat, In cat cats /\ sfind name (snd cat) <> None) ->
  checkStructureNameInUse_loop name false cats g = Return true g.
Proof.
  induction cats as [|cat rest IH]; intros (c & Hin & Hc).
  - destruct Hin.
  - simpl. destruct (sfind name (snd cat)) eqn:E; [reflexivity|].
    apply IH. destruct Hin as [-> | Hin]; [congruence|eauto].
Qed.

Lemma not_nameInUse name g :
  ~ nameInUse name g ->
  forall cat, In cat (state.structureCategories (st g)) ->
              sfind name (snd cat) = None.
Proof.
  intros H cat Hin. destruct (sfind name (snd cat)) eqn:E; [|reflexivity].
  exfalso. apply H. exists cat. split; [assumption|congruence].
Qed.

Lemma checkStructureNameInUse_free name throwError g :
  ~ nameInUse name g ->
  checkStructureNameInUse name throwError g = Return false g.
Proof.
  intros H. unfold checkStructureNameInUse, bind, get.
  apply checkStructureNameInUse_loop_free. now apply not_nameInUse.
Qed.

Lemma checkStructureNameInUse_quiet name g :
  nameInUse name g ->
  checkStructureNameInUse name false g = Return true g.
Proof.
  intros H. unfold checkStructureNameInUse, bind, get.
  now apply checkStructureNameInUse_loop_quiet.
Qed.

(** [checkStructureNameInUse] answers whether a category holds the name.
    When none does it returns [false], whatever [throwError], and when
    one does and [throwError] is off it returns [true]; in both cases
    the globals are untouched. When one does and [throwError] is on, the
    message goes through [error]: thrown with the globals untouched when
    [options::exceptionOnError] is set, else printed, and [true] is
    returned. *)
Theorem checkStructureNameInUse_answer :
  forall name g,
    let message :=
      (options.printPrefix (opts g)
       ++ "Structure name " ++ name ++ " is already in use.")%string in
    (~ nameInUse name g ->
     forall throwError,
       checkStructureNameInUse name throwError g = Return false g)
    /\ (nameInUse name g ->
        checkStructureNameInUse name false g = Return true g
        /\ checkStructureNameInUse name true g
           = if options.exceptionOnError (opts g)
             then Throw (logic_error message) g
             else Return true (print message g)).
Proof.
  intros name g message. split.
  - intros H throwError. now apply checkStructureNameInUse_free.
  - intros H. split; [now apply checkStructureNameInUse_quiet|].
    rewrite (checkStructureNameInUse_in_use _ _ H).
    unfold bind, error, ret, throw, modify.
    now destruct (options.exceptionOnError (opts g)).
Qed.

Lemma checkStructureNameInUse_answer_witness :
  ~ nameInUse "b" cloudLogging
  /\ checkStructureNameInUse "b" true cloudLogging = Return false cloudLogging
  /\ nameInUse "a" cloudLogging
  /\ checkStructureNameInUse "a" false cloudLogging = Return true cloudLogging
  /\ checkStructureNameInUse "a" true cloudLogging
     = Return true
         (print "Polyscope: Structure name a is already in use." cloudLogging).
Proof.
  assert (Hfree : ~ nameInUse "b" cloudLogging).
  { intros (cat & Hin & Hc). vm_compute in Hin.
    repeat (destruct Hin as [<- | Hin]; [now apply Hc|]). destruct Hin. }
  assert (Huse : nameInUse "a" cloudLogging).
  { eexists. split; [left; reflexivity|]. vm_compute. discriminate. }
  destruct (checkStructureNameInUse_answer "a" cloudLogging) as (_ & Ha).
  destruct (checkStructureNameInUse_answer "b" cloudLogging) as (Hb & _).
  destruct (Ha Huse) as (Hquiet & Hloud).
  split; [exact Hfree|]. split; [exact (Hb Hfree true)|].
  split; [exact Huse|]. split; [exact Hquiet|]. exact Hloud.
Defined.

(** ** What registering and removing write *)

Lemma typed_after_assign t name p s t' n :
  sfind n (typedMap t'
             (updateStructureExtents_state
                (set_structureCategories (cat_update t (sassign name p))
                   (set_typedMap t (sassign name p) s))))
  = if StructureType_eq_dec t' t
    then (if string_dec n name then Some p else sfind n (typedMap t s))
    else sfind n (typedMap t' s).
Proof.
  rewrite (proj1 (proj2 (updateStructureExtents_maps _))).
  destruct (StructureType_eq_dec t' t) as [-> | Hne].
  - rewrite <- sfind_sassign. now destruct t.
  - destruct t, t'; try reflexivity; congruence.
Qed.

Lemma cat_after_assign t name p s t' n :
  sfind n (cat_at t'
             (state.structureCategories
                (updateStructureExtents_state
                   (set_structureCategories (cat_update t (sassign name p))
                      (set_typedMap t (sassign name p) s)))))
  = if StructureType_eq_dec t' t
    then (if string_dec n name then Some p
          else sfind n (cat_at t (state.structureCategories s)))
    else sfind n (cat_at t' (state.structureCategories s)).
Proof.
  rewrite (proj1 (updateStructureExtents_maps _)). simpl.
  replace (state.structureCategories (set_typedMap t (sassign name p) s))
    with (state.structureCategories s) by now destruct t.
  destruct (StructureType_eq_dec t' t) as [-> | Hne].
  - now rewrite cat_at_update_same, sfind_sassign.
  - now rewrite cat_at_update_other.
Qed.

Lemma sfind_serase n n' m :
  sfind n' (serase n m) = if string_dec n' n then None else sfind n' m.
Proof.
  unfold sfind, serase. destruct (string_dec n' n) as [-> | Hne].
  - apply find_erase_same.
  - now apply (find_erase_other _ string_compare_eq).
Qed.

Lemma typed_after_erase t name s t' n :
  sfind n (typedMap t'
             (updateStructureExtents_state
                (set_structureCategories (cat_update t (serase name))
                   (set_typedMap t (serase name) s))))
  = if StructureType_eq_dec t' t
    then (if string_dec n name then None else sfind n (typedMap t s))
    else sfind n (typedMap t' s).
Proof.
  rewrite (proj1 (proj2 (updateStructureExtents_maps _))).
  destruct (StructureType_eq_dec t' t) as [-> | Hne].
  - rewrite <- sfind_serase. now destruct t.
  - destruct t, t'; try reflexivity; congruence.
Qed.

Lemma cat_after_erase t name s t' n :
  sfind n (cat_at t'
             (state.structureCategories
                (updateStructureExtents_state
                   (set_structureCategories (cat_update t (serase name))
                      (set_typedMap t (serase name) s)))))
  = if StructureType_eq_dec t' t
    then (if string_dec n name then None
          else sfind n (cat_at t (state.structureCategories s)))
    else sfind n (cat_at t' (state.structureCategories s)).
Proof.
  rewrite (proj1 (updateStructureExtents_maps _)). simpl.
  replace (state.structureCategories (set_typedMap t (serase name) s))
    with (state.structureCategories s) by now destruct t.
  destruct (StructureType_eq_dec t' t) as [-> | Hne].
  - now rewrite cat_at_update_same, sfind_serase.
  - now rewrite cat_at_update_other.
Qed.

(** The globals the removal of the structure [p], found under [name] in
    the typed map of [t], leaves. *)
Lemma removeStructure_statements_result t name p g :
  run_statements (removeStructure_statements t name p) g
  = mkGlobals
      (updateStructureExtents_state
         (set_structureCategories (cat_update t (serase name))
            (set_typedMap t (serase name) (st g))))
      (opts g) (vw g) (pb g)
      (pick.clearPickIfStructureSelected p (selection g))
      (List.remove Nat.eq_dec (Structure.addr p) (heap g))
      (nextAddr g) (cout g) (glNextName g) (glCalls g).
Proof. reflexivity. Qed.

(** The globals the statements of a register function after the check
    leave. *)
Lemma register_statements_result t name geom g :
  (p <- new t name geom ;;
   modify (set_st (set_typedMap t (sassign name p))) ;;;
   modify (set_st (set_structureCategories
                     (cat_update t (sassign name p)))) ;;;
   modify updateStructureExtents) g
  = let p := Structure.mk (nextAddr g) name t (geomBoundingBox geom)
                          (geomLengthScale geom) in
    Return tt
      (mkGlobals
         (updateStructureExtents_state
            (set_structureCategories (cat_update t (sassign name p))
               (set_typedMap t (sassign name p) (st g))))
         (opts g) (vw g) (pb g) (selection g) (nextAddr g :: heap g)
         (S (nextAddr g)) (cout g) (glNextName g) (glCalls g)).
Proof. reflexivity. Qed.

(** The four ways [checkStructureNameInUse] ends. *)
Lemma checkStructureNameInUse_ends name throwError g :
  let r := checkStructureNameInUse name throwError g in
  (~ nameInUse name g /\ r = Return false g)
  \/ (nameInUse name g /\ throwError = false /\ r = Return true g)
  \/ (nameInUse name g /\ throwError = true
      /\ options.exceptionOnError (opts g) = false
      /\ r = Return true
               (print (options.printPrefix (opts g)
                       ++ "Structure name " ++ name ++ " is already in use.")
                      g))
  \/ (nameInUse name g /\ throwError = true
      /\ options.exceptionOnError (opts g) = true
      /\ r = Throw (logic_error
                      (options.printPrefix (opts g)
                       ++ "Structure name " ++ name ++ " is already in use."))
                   g).
Proof.
  intros r. subst r.
  assert (Hdec : nameInUse name g \/ ~ nameInUse name g).
  { unfold nameInUse.
    induction (state.structureCategories (st g)) as [|cat rest IH].
    - right. intros (c & [] & _).
    - destruct (sfind name (snd cat)) eqn:E.
      + left. exists cat. split; [now left|congruence].
      + destruct IH as [(c & Hin & Hc) | IH].
        * left. exists c. split; [now right|assumption].
        * right. intros (c & [<- | Hin] & Hc); [congruence|].
          apply IH. eauto. }
  destruct Hdec as [Huse | Hfree].
  - right. destruct throwError.
    + rewrite (checkStructureNameInUse_in_use _ _ Huse).
      destruct (options.exceptionOnError (opts g)) eqn:Hexc.
      * right. right. rewrite error_reported by assumption. auto.
      * right. left. rewrite error_logged by assumption. auto.
    + left. split; [assumption|]. split; [reflexivity|].
      now apply checkStructureNameInUse_quiet.
  - left. split; [assumption|]. now apply checkStructureNameInUse_free.
Qed.

Lemma updateStructureExtents_consistent s :
  extent_consistent (updateStructureExtents_state s).
Proof.
  destruct (updateStructureExtents_fields s) as (H1 & H2 & H3).
  unfold extent_consistent, liveStructures.
  rewrite (proj1 (updateStructureExtents_maps s)).
  fold (liveStructures s). auto.
Qed.

Lemma nameInUse_cat_at name t g p :
  sfind name (cat_at t (state.structureCategories (st g))) = Some p ->
  nameInUse name g.
Proof.
  intros H.
  destruct (cat_at_in t (state.structureCategories (st g)))
    as [E | (t' & Hin)].
  - rewrite E in H. discriminate H.
  - exists (t', cat_at t (state.structureCategories (st g))).
    split; [assumption|]. simpl. congruence.
Qed.

(** ** Registering a name that is free *)



(** ** Operations that throw *)

Lemma removeStructure_throw name g e g' :
  removeStructure name g = Throw e g' -> g' = g.
Proof.
  destruct (removeStructure_find name (st g)) as [[t p]|] eqn:E.
  - rewrite (removeStructure_found _ _ _ _ E). discriminate.
  - rewrite (removeStructure_not_found _ _ E). unfold error.
    destruct (options.exceptionOnError (opts g)); [|discriminate].
    now intros [= _ <-].
Qed.

Lemma registerStructure_throw t name geom replaceIfPresent g e g' :
  registerStructure t name geom replaceIfPresent g = Throw e g' -> g' = g.
Proof.
  rewrite registerStructure_steps.
  destruct (checkStructureNameInUse_ends name (negb replaceIfPresent) g)
    as [(_ & Hr) | [(_ & _ & Hr) | [(_ & _ & Hlog & Hr) | (_ & _ & _ & Hr)]]];
    rewrite Hr.
  - unfold ret. rewrite register_statements_result. discriminate.
  - destruct (removeStructure name g) as [[] g1 | e1 g1] eqn:Hrem.
    + rewrite register_statements_result. discriminate.
    + intros [= _ <-]. eapply removeStructure_throw. eassumption.
  - match goal with |- context [removeStructure name ?g0] =>
      destruct (removeStructure_logged name g0 Hlog) as (g1 & rest & Hrem & _)
    end.
    rewrite Hrem, register_statements_result. discriminate.
  - now intros [= _ <-].
Qed.

Lemma getStructure_throw t kind name g e g' :
  getStructure t kind name g = Throw e g' -> g' = g.
Proof.
  unfold getStructure, bind, get.
  destruct (sfind name (typedMap t (st g))); [discriminate|].
  unfold error. destruct (options.exceptionOnError (opts g));
    [|discriminate]. now intros [= _ <-].
Qed.

Lemma init_throw env g e g' : init env g = Throw e g' -> g' = g.
Proof.
  unfold init, bind at 1, get.
  destruct (state.initialized (st g)); [now intros [= _ <-]|].
  destruct (glfwInit env); [|now intros [= _ <-]].
  destruct (gladLoadGL env); [|now intros [= _ <-]].
  simpl. destruct (0 <? options.verbosity (opts g)); discriminate.
Qed.

(** A call that throws has written nothing: a register function, a
    getter, [removeStructure] and [init] leave the globals exactly as
    they found them whenever they end in an exception. *)
Theorem throw_leaves_globals :
  forall g e g',
    (forall t name geom replaceIfPresent,
        registerStructure t name geom replaceIfPresent g = Throw e g' ->
        g' = g)
    /\ (forall name, removeStructure name g = Throw e g' -> g' = g)
    /\ (forall t kind name, getStructure t kind name g = Throw e g' -> g' = g)
    /\ (forall env, init env g = Throw e g' -> g' = g).
Proof.
  intros g e g'. split; [|split; [|split]].
  - intros t name geom r. apply registerStructure_throw.
  - intros name. apply removeStructure_throw.
  - intros t kind name. apply getStructure_throw.
  - intros env. apply init_throw.
Qed.

Lemma throw_leaves_globals_witness :
  registerRaySet "a" farBox false
    (after (registerPointCloud "a" unitBox false (initial exampleView)))
  = Throw (logic_error "Polyscope: Structure name a is already in use.")
          (after (registerPointCloud "a" unitBox false (initial exampleView))).
Proof.
  set (g := after (registerPointCloud "a" unitBox false (initial exampleView))).
  destruct (registerRaySet "a" farBox false g) as [a g' | e g'] eqn:E.
  - vm_compute in E. discriminate E.
  - destruct (throw_leaves_globals g e g') as (H & _).
    rewrite (H RaySet "a"%string farBox false E).
    f_equal. vm_compute in E. now injection E as <- _.
Defined.

(** ** The extent after a mutation *)

Lemma updateStructureExtents_closed s :
  updateStructureExtents_state s
  = let l := liveStructures s in
    state.mk (state.initialized s) (extent_spec.lengthScale l)
             (extent_spec.boundingBox l) (extent_spec.center l)
             (state.structureCategories s) (state.pointClouds s)
             (state.surfaceMeshes s) (state.cameraViews s) (state.raySets s).
Proof.
  destruct (updateStructureExtents_fields s) as (H1 & H2 & H3).
  destruct (updateStructureExtents_maps s) as (H4 & H5 & H6).
  pose proof (H5 PointCloud) as Hpc. pose proof (H5 SurfaceMesh) as Hsm.
  pose proof (H5 CameraView) as Hcv. pose proof (H5 RaySet) as Hrs.
  simpl in Hpc, Hsm, Hcv, Hrs.
  destruct (updateStructureExtents_state s). simpl in *. congruence.
Qed.

Lemma extent_boundingBox_finite l :
  isFinite (fst (extent_spec.boundingBox l)) = true
  /\ isFinite (snd (extent_spec.boundingBox l)) = true.
Proof.
  unfold extent_spec.boundingBox.
  destruct (isFinite (extent_spec.foldedMin l)) eqn:E1;
    destruct (isFinite (extent_spec.foldedMax l)) eqn:E2; simpl;
    split; try assumption; reflexivity.
Qed.

Lemma register_returns_updated t name geom replaceIfPresent g g' :
  registerStructure t name geom replaceIfPresent g = Return tt g' ->
  exists s, st g' = updateStructureExtents_state s.
Proof.
  rewrite registerStructure_steps.
  destruct (checkStructureNameInUse name (negb replaceIfPresent) g)
    as [inUse g1 | e g1]; [|discriminate].
  destruct ((if inUse then removeStructure name else ret tt) g1)
    as [[] g2 | e g2]; [|discriminate].
  rewrite register_statements_result. simpl. intros [= <-]. simpl. eauto.
Qed.

(** Whatever the registry was, once a register function has returned,
    once [removeStructure] has removed a structure and once
    [removeAllStructures] has run, the stored length scale, bounding box
    and centre are the ones the live structures give, and both corners of
    the box are finite; and recomputing the extent a second time changes
    nothing. *)
Theorem extent_after_mutation :
  forall g,
    (forall t name geom replaceIfPresent g',
        registerStructure t name geom replaceIfPresent g = Return tt g' ->
        extent_consistent (st g')
        /\ isFinite (fst (state.boundingBox (st g'))) = true
        /\ isFinite (snd (state.boundingBox (st g'))) = true)
    /\ (forall name t p,
          removeStructure_find name (st g) = Some (t, p) ->
          let g' := after (removeStructure name g) in
          extent_consistent (st g')
          /\ isFinite (fst (state.boundingBox (st g'))) = true
          /\ isFinite (snd (state.boundingBox (st g'))) = true)
    /\ (let g' := removeAllStructures g in
        extent_consistent (st g')
        /\ isFinite (fst (state.boundingBox (st g'))) = true
        /\ isFinite (snd (state.boundingBox (st g'))) = true)
    /\ updateStructureExtents (updateStructureExtents g)
       = updateStructureExtents g.
Proof.
  assert (Hup : forall s,
             extent_consistent (updateStructureExtents_state s)
             /\ isFinite (fst (state.boundingBox
                                 (updateStructureExtents_state s))) = true
             /\ isFinite (snd (state.boundingBox
                                 (updateStructureExtents_state s))) = true).
  { intros s. split; [apply updateStructureExtents_consistent|].
    rewrite (proj1 (proj2 (updateStructureExtents_fields s))).
    apply extent_boundingBox_finite. }
  intros g. split; [|split; [|split]].
  - intros t name geom r g' Hr.
    destruct (register_returns_updated _ _ _ _ _ _ Hr) as (s & ->). apply Hup.
  - intros name t p Hfind g'. subst g'.
    rewrite (removeStructure_found _ _ _ _ Hfind). cbn [after].
    rewrite removeStructure_statements_result. cbn [st]. apply Hup.
  - simpl. apply Hup.
  - unfold updateStructureExtents, set_st. simpl. f_equal.
    rewrite (updateStructureExtents_closed (updateStructureExtents_state (st g))).
    rewrite (updateStructureExtents_closed (st g)). reflexivity.
Qed.

Lemma extent_after_mutation_witness :
  removeStructure_find "B" (st twoBoxes)
  = Some (SurfaceMesh,
          Structure.mk 1 "B" SurfaceMesh (mkVector3 2 2 2, mkVector3 3 3 3) 1)
  /\ extent_consistent (st (after (removeStructure "B" twoBoxes)))
  /\ state.boundingBox (st (after (removeStructure "B" twoBoxes)))
     = (mkVector3 0 0 0, mkVector3 1 1 1).
Proof.
  assert (Hfind : removeStructure_find "B" (st twoBoxes)
                  = Some (SurfaceMesh,
                          Structure.mk 1 "B" SurfaceMesh
                            (mkVector3 2 2 2, mkVector3 3 3 3) 1))
    by (vm_compute; reflexivity).
  destruct (extent_after_mutation twoBoxes) as (_ & Hrem & _).
  destruct (Hrem _ _ _ Hfind) as (Hcons & _).
  split; [exact Hfind|]. split; [exact Hcons|]. vm_compute. reflexivity.
Defined.

(** ** Other names *)

Lemma removeStructure_other name g n t' :
  n <> name ->
  let g' := after (removeStructure name g) in
  sfind n (typedMap t' (st g')) = sfind n (typedMap t' (st g))
  /\ sfind n (cat_at t' (state.structureCategories (st g')))
     = sfind n (cat_at t' (state.structureCategories (st g))).
Proof.
  intros Hne g'. subst g'.
  destruct (removeStructure_find name (st g)) as [[t p]|] eqn:E.
  - rewrite (removeStructure_found _ _ _ _ E). cbn [after].
    rewrite removeStructure_statements_result. cbn [st].
    rewrite typed_after_erase, cat_after_erase.
    destruct (StructureType_eq_dec t' t) as [-> |]; [|auto].
    destruct (string_dec n name); [contradiction|auto].
  - rewrite (removeStructure_not_found _ _ E). unfold error.
    destruct (options.exceptionOnError (opts g)); simpl; auto.
Qed.

Lemma register_statements_other t name geom g n t' :
  n <> name ->
  let g' := after ((p <- new t name geom ;;
                    modify (set_st (set_typedMap t (sassign name p))) ;;;
                    modify (set_st (set_structureCategories
                                      (cat_update t (sassign name p)))) ;;;
                    modify updateStructureExtents) g) in
  sfind n (typedMap t' (st g')) = sfind n (typedMap t' (st g))
  /\ sfind n (cat_at t' (state.structureCategories (st g')))
     = sfind n (cat_at t' (state.structureCategories (st g))).
Proof.
  intros Hne g'. subst g'. rewrite register_statements_result.
  cbn [after st]. rewrite typed_after_assign, cat_after_assign.
  destruct (StructureType_eq_dec t' t) as [-> |]; [|auto].
  destruct (string_dec n name); [contradiction|auto].
Qed.

Lemma registerStructure_other t name geom replaceIfPresent g n t' :
  n <> name ->
  let g' := after (registerStructure t name geom replaceIfPresent g) in
  sfind n (typedMap t' (st g')) = sfind n (typedMap t' (st g))
  /\ sfind n (cat_at t' (state.structureCategories (st g')))
     = sfind n (cat_at t' (state.structureCategories (st g))).
Proof.
  intros Hne g'. subst g'. rewrite registerStructure_steps.
  destruct (checkStructureNameInUse_cases name (negb replaceIfPresent) g)
    as [[Hr _] | [(g1 & Hr & Hst) | (e & Hr)]]; rewrite Hr.
  - unfold ret. now apply register_statements_other.
  - pose proof (removeStructure_other name g1 n t' Hne) as Hrem.
    destruct (removeStructure name g1) as [[] g2 | e g2].
    + cbn [after] in Hrem.
      destruct (register_statements_other t name geom g2 n t' Hne) as [H1 H2].
      rewrite H1, H2, <- Hst. exact Hrem.
    + cbn [after] in *. now rewrite <- Hst.
  - cbn [after]. auto.
Qed.

(** Registering or removing a name leaves every other name alone: what
    the typed maps and the categories hold under another name is the same
    after the call as before, whether the call returns or throws. *)
Theorem other_names_untouched :
  forall g name n t',
    n <> name ->
    (forall t geom replaceIfPresent,
        let g' := after (registerStructure t name geom replaceIfPresent g) in
        sfind n (typedMap t' (st g')) = sfind n (typedMap t' (st g))
        /\ sfind n (cat_at t' (state.structureCategories (st g')))
           = sfind n (cat_at t' (state.structureCategories (st g))))
    /\ (let g' := after (removeStructure name g) in
        sfind n (typedMap t' (st g')) = sfind n (typedMap t' (st g))
        /\ sfind n (cat_at t' (state.structureCategories (st g')))
           = sfind n (cat_at t' (state.structureCategories (st g)))).
Proof.
  intros g name n t' Hne. split.
  - intros t geom r. now apply registerStructure_other.
  - now apply removeStructure_other.
Qed.

Lemma other_names_untouched_witness :
  sfind "A" (state.pointClouds (st (after (removeStructure "B" twoBoxes))))
  = sfind "A" (state.pointClouds (st twoBoxes))
  /\ sfind "A" (state.pointClouds (st twoBoxes))
     = Some (Structure.mk 0 "A" PointCloud
               (mkVector3 0 0 0, mkVector3 1 1 1) 1).
Proof.
  assert (Hne : "A"%string <> "B"%string) by discriminate.
  destruct (other_names_untouched twoBoxes "B" "A" PointCloud Hne)
    as (_ & Hrem & _).
  split; [exact Hrem|]. vm_compute. reflexivity.
Defined.

(** * Memory safety of the registry *)

(** ** Ordered maps *)

Section MapOrder.
Context {K V : Type}.
Variable cmp : K -> K -> comparison.
Hypothesis cmp_eq : forall a b, cmp a b = Eq <-> a = b.
Hypothesis cmp_trans :
  forall a b c, cmp a b = Lt -> cmp b c = Lt -> cmp a c = Lt.
Hypothesis cmp_antisym : forall a b, cmp a b = CompOpp (cmp b a).

Lemma Forall_key_assign (Q : K -> Prop) k (v : V) m :
  Q k -> Forall (fun b => Q (fst b)) m ->
  Forall (fun b => Q (fst b)) (stdmap.assign cmp k v m).
Proof.
  intros Hk. induction m as [|[k' v'] m IH]; intros Hall; simpl.
  - constructor; [assumption|constructor].
  - inversion Hall as [|? ? Hk' Hm]; subst.
    destruct (cmp k k'); constructor; auto.
Qed.

Lemma Forall_erase (Q : K * V -> Prop) k m :
  Forall Q m -> Forall Q (stdmap.erase cmp k m).
Proof.
  induction m as [|[k' v'] m IH]; intros Hall; simpl; [constructor|].
  inversion Hall; subst. destruct (cmp k k'); auto.
Qed.

Lemma sorted_assign k (v : V) m :
  sorted cmp m -> sorted cmp (stdmap.assign cmp k v m).
Proof.
  unfold sorted. induction 1 as [|[k' v'] m Hs IH Hall]; simpl.
  - repeat constructor.
  - destruct (cmp k k') eqn:E.
    + constructor; assumption.
    + constructor; [now constructor|].
      constructor; [exact E|].
      eapply Forall_impl; [|exact Hall].
      intros b Hb. simpl in *. eapply cmp_trans; eassumption.
    + constructor; [assumption|].
      apply (Forall_key_assign (fun x => cmp k' x = Lt)); [|assumption].
      rewrite cmp_antisym, E. reflexivity.
Qed.

Lemma sorted_erase k (m : list (K * V)) :
  sorted cmp m -> sorted cmp (stdmap.erase cmp k m).
Proof.
  unfold sorted. induction 1 as [|[k' v'] m Hs IH Hall]; simpl.
  - constructor.
  - destruct (cmp k k'); try assumption;
      (constructor; [assumption|now apply Forall_erase]).
Qed.

(** In a map whose keys increase, an entry is what [find] returns for its
    key. *)
Lemma sorted_find k (v : V) m :
  sorted cmp m -> In (k, v) m -> stdmap.find cmp k m = Some v.
Proof.
  unfold sorted. induction 1 as [|[k' v'] m Hs IH Hall]; intros Hin.
  - destruct Hin.
  - simpl. destruct Hin as [[= -> ->] | Hin].
    + now rewrite (proj2 (cmp_eq k k) eq_refl).
    + rewrite Forall_forall in Hall. pose proof (Hall _ Hin) as Hlt.
      simpl in Hlt. rewrite cmp_antisym, Hlt. simpl. now apply IH.
Qed.

Lemma in_assign_snd k (v : V) m e :
  In e (stdmap.assign cmp k v m) -> snd e = v \/ In e m.
Proof.
  induction m as [|[k' v'] m IH]; simpl.
  - intros [<- | []]. now left.
  - destruct (cmp k k'); simpl.
    + intros [<- | H]; auto.
    + intros [<- | H]; auto.
    + intros [<- | H]; auto. destruct (IH H); auto.
Qed.

Lemma find_some_in k (v : V) m :
  stdmap.find cmp k m = Some v -> In (k, v) m.
Proof.
  induction m as [|[k' v'] m IH]; simpl; [discriminate|].
  destruct (cmp k k') eqn:E.
  - apply cmp_eq in E. subst k'. intros [= ->]. now left.
  - auto.
  - auto.
Qed.
End MapOrder.

Lemma ascii_compare_trans a b c :
  Ascii.compare a b = Lt -> Ascii.compare b c = Lt -> Ascii.compare a c = Lt.
Proof.
  unfold Ascii.compare. rewrite !N.compare_lt_iff. lia.
Qed.

Lemma string_compare_trans a : forall b c,
  String.compare a b = Lt -> String.compare b c = Lt ->
  String.compare a c = Lt.
Proof.
  induction a as [|x a IH]; intros [|y b] [|z c]; simpl;
    try discriminate; try reflexivity.
  destruct (Ascii.compare x y) eqn:Exy; try discriminate;
    destruct (Ascii.compare y z) eqn:Eyz; try discriminate; intros H1 H2.
  - apply Ascii.compare_eq_iff in Exy, Eyz. subst.
    replace (Ascii.compare z z) with Eq
      by (symmetry; unfold Ascii.compare; apply N.compare_refl).
    eapply IH; eassumption.
  - apply Ascii.compare_eq_iff in Exy. subst. now rewrite Eyz.
  - apply Ascii.compare_eq_iff in Eyz. subst. now rewrite Exy.
  - now rewrite (ascii_compare_trans _ _ _ Exy Eyz).
Qed.

Lemma StructureType_compare_trans a b c :
  StructureType_compare a b = Lt -> StructureType_compare b c = Lt ->
  StructureType_compare a c = Lt.
Proof.
  unfold StructureType_compare. rewrite !Nat.compare_lt_iff. lia.
Qed.

Lemma StructureType_compare_antisym a b :
  StructureType_compare a b = CompOpp (StructureType_compare b a).
Proof. unfold StructureType_compare. apply Nat.compare_antisym. Qed.

Lemma sorted_sassign name p m :
  sorted String.compare m -> sorted String.compare (sassign name p m).
Proof.
  apply sorted_assign;
    [apply string_compare_trans | apply String.compare_antisym].
Qed.

Lemma sorted_serase name (m : smap) :
  sorted String.compare m -> sorted String.compare (serase name m).
Proof. apply sorted_erase. Qed.

Lemma sorted_sfind n p (m : smap) :
  sorted String.compare m -> In (n, p) m -> sfind n m = Some p.
Proof.
  apply sorted_find; [apply string_compare_eq | apply String.compare_antisym].
Qed.

Lemma sorted_cat_at t c :
  (forall cat, In cat c -> sorted String.compare (snd cat)) ->
  sorted String.compare (cat_at t c).
Proof.
  intros H. destruct (cat_at_in t c) as [-> | (t' & Hin)].
  - constructor.
  - apply (H _ Hin).
Qed.

Lemma sorted_cat_update t f c :
  (forall m, sorted String.compare m -> sorted String.compare (f m)) ->
  sorted StructureType_compare c ->
  (forall cat, In cat c -> sorted String.compare (snd cat)) ->
  sorted StructureType_compare (cat_update t f c)
  /\ (forall cat, In cat (cat_update t f c) -> sorted String.compare (snd cat)).
Proof.
  intros Hf Hc Hin. unfold cat_update. split.
  - apply sorted_assign;
      [apply StructureType_compare_trans
      |apply StructureType_compare_antisym|assumption].
  - intros cat Hcat. apply in_assign_snd in Hcat.
    destruct Hcat as [-> | Hcat]; [|auto].
    apply Hf. now apply sorted_cat_at.
Qed.

Lemma cat_at_entry t m c :
  sorted StructureType_compare c -> In (t, m) c -> cat_at t c = m.
Proof.
  intros Hc Hin. unfold cat_at.
  now rewrite (sorted_find _ StructureType_compare_eq
                 StructureType_compare_antisym t m c Hc Hin).
Qed.

(** ** The registry after a write *)

Lemma st_after_writes t f F s :
  (forall t',
      typedMap t' (updateStructureExtents_state
                     (set_structureCategories F (set_typedMap t f s)))
      = if StructureType_eq_dec t' t then f (typedMap t s)
        else typedMap t' s)
  /\ state.structureCategories
       (updateStructureExtents_state
          (set_structureCategories F (set_typedMap t f s)))
     = F (state.structureCategories s).
Proof.
  destruct (updateStructureExtents_maps
              (set_structureCategories F (set_typedMap t f s)))
    as (Hc & Ht & _).
  split.
  - intros t'. rewrite Ht.
    destruct (StructureType_eq_dec t' t) as [-> | Hne].
    + now destruct t.
    + destruct t, t'; try reflexivity; congruence.
  - rewrite Hc. now destruct t.
Qed.

Lemma maps_sorted_after_writes t f s g g' :
  (forall m, sorted String.compare m -> sorted String.compare (f m)) ->
  maps_sorted g ->
  st g' = updateStructureExtents_state
            (set_structureCategories (cat_update t f)
               (set_typedMap t f (st g))) ->
  s = st g ->
  maps_sorted g'.
Proof.
  intros Hf (Htyped & Hcats & Hinner) E ->. unfold maps_sorted. rewrite E.
  destruct (st_after_writes t f (cat_update t f) (st g)) as (Ht & Hc).
  destruct (sorted_cat_update t f _ Hf Hcats Hinner) as (H1 & H2).
  split; [|split].
  - intros t'. rewrite Ht.
    destruct (StructureType_eq_dec t' t) as [-> |]; auto.
  - now rewrite Hc.
  - now rewrite Hc.
Qed.

(** ** [removeStructure] *)

Lemma memory_safe_removeStructure_statements t name p g :
  memory_safe g ->
  sfind name (typedMap t (st g)) = Some p ->
  memory_safe (run_statements (removeStructure_statements t name p) g).
Proof.
  intros (Hsorted & Hlive & Hcats & Hdist & Hbelow & Hsel) Hp.
  rewrite removeStructure_statements_result.
  set (g' := mkGlobals _ _ _ _ _ _ _ _ _ _).
  assert (Htyped : forall t' n q,
             sfind n (typedMap t' (st g')) = Some q ->
             sfind n (typedMap t' (st g)) = Some q
             /\ (t' <> t \/ n <> name)).
  { intros t' n q. subst g'. cbn [st]. rewrite typed_after_erase.
    destruct (StructureType_eq_dec t' t) as [-> | Hne]; [|auto].
    destruct (string_dec n name); [discriminate|auto]. }
  split; [|split; [|split; [|split; [|split]]]].
  - eapply (maps_sorted_after_writes t (serase name));
      [apply sorted_serase|eassumption|reflexivity|reflexivity].
  - intros t' n q Hq. destruct (Htyped _ _ _ Hq) as (Hq0 & Hother).
    subst g'. cbn [heap]. apply in_remove_other; [eapply Hlive; eassumption|].
    intros E. destruct (Hdist _ _ _ _ _ _ Hq0 Hp E) as (-> & ->).
    destruct Hother; congruence.
  - intros t' n q. subst g'. cbn [st].
    rewrite cat_after_erase, typed_after_erase.
    destruct (StructureType_eq_dec t' t) as [-> |]; [|apply Hcats].
    destruct (string_dec n name); [discriminate|apply Hcats].
  - intros t1 n1 p1 t2 n2 p2 H1 H2.
    destruct (Htyped _ _ _ H1) as (H1' & _).
    destruct (Htyped _ _ _ H2) as (H2' & _).
    now apply (Hdist t1 n1 p1 t2 n2 p2).
  - intros a Ha. subst g'. cbn [heap nextAddr] in *.
    apply Hbelow. eapply in_remove. eassumption.
  - unfold selection_live in *. subst g'. cbn [selection heap].
    destruct (selection g) as [|q i]; [exact I|]. simpl.
    destruct (Nat.eqb_spec q (Structure.addr p)) as [E | E]; [exact I|].
    now apply in_remove_other.
Qed.

Lemma memory_safe_ext g g' :
  st g' = st g -> heap g' = heap g -> nextAddr g' = nextAddr g ->
  selection g' = selection g ->
  memory_safe g -> memory_safe g'.
Proof.
  unfold memory_safe, maps_sorted, typed_live, cats_in_typed,
    addresses_distinct, heap_below, selection_live.
  intros -> -> -> ->. auto.
Qed.

Lemma memory_safe_removeStructure name g :
  memory_safe g -> memory_safe (after (removeStructure name g)).
Proof.
  intros Hsafe.
  destruct (removeStructure_find name (st g)) as [[t p]|] eqn:E.
  - rewrite (removeStructure_found _ _ _ _ E). cbn [after].
    apply memory_safe_removeStructure_statements; [assumption|].
    eapply removeStructure_find_typed. eassumption.
  - rewrite (removeStructure_not_found _ _ E). unfold error.
    destruct (options.exceptionOnError (opts g)); cbn [after];
      [assumption|].
    now apply (memory_safe_ext g).
Qed.

(** ** The register functions *)

Lemma memory_safe_register_statements t name geom g :
  memory_safe g ->
  memory_safe
    (after ((p <- new t name geom ;;
             modify (set_st (set_typedMap t (sassign name p))) ;;;
             modify (set_st (set_structureCategories
                               (cat_update t (sassign name p)))) ;;;
             modify updateStructureExtents) g)).
Proof.
  intros (Hsorted & Hlive & Hcats & Hdist & Hbelow & Hsel).
  rewrite register_statements_result. cbn [after].
  set (p := Structure.mk (nextAddr g) name t (geomBoundingBox geom)
                         (geomLengthScale geom)).
  set (g' := mkGlobals _ _ _ _ _ _ _ _ _ _).
  assert (Htyped : forall t' n q,
             sfind n (typedMap t' (st g')) = Some q ->
             (t' = t /\ n = name /\ q = p)
             \/ sfind n (typedMap t' (st g)) = Some q).
  { intros t' n q. subst g'. cbn [st]. rewrite typed_after_assign.
    destruct (StructureType_eq_dec t' t) as [-> | Hne]; [|auto].
    destruct (string_dec n name) as [-> |]; [|auto].
    intros [= <-]. auto. }
  split; [|split; [|split; [|split; [|split]]]].
  - eapply (maps_sorted_after_writes t (sassign name p));
      [intros m; apply sorted_sassign|eassumption|reflexivity|reflexivity].
  - intros t' n q Hq. subst g'. cbn [heap].
    destruct (Htyped _ _ _ Hq) as [(_ & _ & ->) | Hq0].
    + now left.
    + right. eapply Hlive. eassumption.
  - intros t' n q. subst g'. cbn [st].
    rewrite cat_after_assign, typed_after_assign.
    destruct (StructureType_eq_dec t' t) as [-> |]; [|apply Hcats].
    destruct (string_dec n name); [auto|apply Hcats].
  - intros t1 n1 p1 t2 n2 p2 H1 H2 E.
    destruct (Htyped _ _ _ H1) as [(-> & -> & ->) | H1'];
      destruct (Htyped _ _ _ H2) as [(-> & -> & ->) | H2'].
    + auto.
    + exfalso. pose proof (Hbelow _ (Hlive _ _ _ H2')) as Hlt.
      rewrite <- E in Hlt. simpl in Hlt. lia.
    + exfalso. pose proof (Hbelow _ (Hlive _ _ _ H1')) as Hlt.
      rewrite E in Hlt. simpl in Hlt. lia.
    + now apply (Hdist t1 n1 p1 t2 n2 p2).
  - intros a Ha. subst g'. cbn [heap nextAddr] in *.
    destruct Ha as [<- | Ha]; [lia|]. specialize (Hbelow _ Ha). lia.
  - unfold selection_live in *. subst g'. cbn [selection heap].
    destruct (selection g); [exact I|]. now right.
Qed.

Lemma memory_safe_registerStructure t name geom replaceIfPresent g :
  memory_safe g ->
  memory_safe (after (registerStructure t name geom replaceIfPresent g)).
Proof.
  intros Hsafe. rewrite registerStructure_steps.
  destruct (checkStructureNameInUse_ends name (negb replaceIfPresent) g)
    as [(_ & Hr) | [(_ & _ & Hr) | [(_ & _ & Hlog & Hr) | (_ & _ & _ & Hr)]]];
    rewrite Hr.
  - unfold ret. now apply memory_safe_register_statements.
  - pose proof (memory_safe_removeStructure name g Hsafe) as Hrem.
    destruct (removeStructure name g) as [[] g1 | e g1]; cbn [after] in Hrem.
    + now apply memory_safe_register_statements.
    + exact Hrem.
  - match goal with |- context [removeStructure name ?g0] =>
      assert (Hsafe0 : memory_safe g0) by (now apply (memory_safe_ext g));
      pose proof (memory_safe_removeStructure name g0 Hsafe0) as Hrem;
      destruct (removeStructure name g0) as [[] g1 | e g1]
    end; cbn [after] in Hrem.
    + now apply memory_safe_register_statements.
    + exact Hrem.
  - exact Hsafe.
Qed.

(** ** [removeAllStructures] *)

Lemma delete_all_heap m : forall g,
  (forall a, In a (heap (delete_all m g))
             <-> In a (heap g)
                 /\ forall x, In x m -> Structure.addr (snd x) <> a)
  /\ nextAddr (delete_all m g) = nextAddr g.
Proof.
  induction m as [|x m IH]; intros g; simpl.
  - split; [|reflexivity]. intros a. split; [intros H; split; [assumption|]|tauto].
    intros x [].
  - destruct (IH (delete (snd x) g)) as (Hin & Hnext). split; [|exact Hnext].
    intros a. rewrite Hin. simpl. split.
    + intros (Ha & Hm). split; [eapply in_remove; eassumption|].
      intros y [<- | Hy]; [|auto].
      intros E. apply in_remove in Ha. destruct Ha as [_ Ha]. congruence.
    + intros (Ha & Hm). split.
      * apply in_remove_other; [assumption|].
        intros E. apply (Hm x); auto.
      * intros y Hy. apply Hm. now right.
Qed.

Lemma removeAllStructures_heap g :
  (forall a, In a (heap (removeAllStructures g))
             <-> In a (heap g)
                 /\ (forall x, In x (state.pointClouds (st g)) ->
                               Structure.addr (snd x) <> a)
                 /\ (forall x, In x (state.surfaceMeshes (st g)) ->
                               Structure.addr (snd x) <> a))
  /\ nextAddr (removeAllStructures g) = nextAddr g.
Proof.
  unfold removeAllStructures.
  set (g1 := delete_all (state.pointClouds (st g)) g).
  set (g2 := delete_all (state.surfaceMeshes (st g1)) g1).
  destruct (heap_delete_all (state.pointClouds (st g)) g) as (E1 & _).
  fold g1 in E1.
  destruct (delete_all_heap (state.pointClouds (st g)) g) as (H1 & N1).
  destruct (delete_all_heap (state.surfaceMeshes (st g1)) g1) as (H2 & N2).
  fold g1 in H1, N1. fold g2 in H2, N2. rewrite E1 in H2.
  cbn [heap nextAddr set_selection set_st updateStructureExtents].
  split; [|congruence].
  intros a. rewrite H2, H1. tauto.
Qed.

Lemma removeAllStructures_typed g t n :
  sfind n (typedMap t (st (removeAllStructures g)))
  = match t with
    | PointCloud | SurfaceMesh => None
    | _ => sfind n (typedMap t (st g))
    end.
Proof.
  destruct (removeAllStructures_effect g) as (_ & Hpc & Hsm & _ & _ & Hcv & Hrs).
  destruct t; cbn [typedMap]; rewrite ?Hpc, ?Hsm, ?Hcv, ?Hrs; reflexivity.
Qed.

Lemma memory_safe_removeAllStructures g :
  memory_safe g -> memory_safe (removeAllStructures g).
Proof.
  intros (Hsorted & Hlive & Hcats & Hdist & Hbelow & Hsel).
  destruct (removeAllStructures_effect g)
    as (Ec & Hpc & Hsm & _ & Esel & Hcv & Hrs).
  destruct (removeAllStructures_heap g) as (Hheap & Hnext).
  assert (Htyped : forall t n q,
             sfind n (typedMap t (st (removeAllStructures g))) = Some q ->
             sfind n (typedMap t (st g)) = Some q
             /\ t <> PointCloud /\ t <> SurfaceMesh).
  { intros t n q. rewrite removeAllStructures_typed.
    destruct t; try discriminate; intros H; repeat split;
      try assumption; discriminate. }
  split; [|split; [|split; [|split; [|split]]]].
  - destruct Hsorted as (Hs & _). split; [|split].
    + intros t. pose proof (Hs t) as Ht.
      destruct t; cbn [typedMap] in *; rewrite ?Hpc, ?Hsm, ?Hcv, ?Hrs;
        try assumption; constructor.
    + rewrite Ec. constructor.
    + rewrite Ec. intros cat [].
  - intros t n q Hq. destruct (Htyped _ _ _ Hq) as (Hq0 & Hpc' & Hsm').
    apply Hheap. split; [eapply Hlive; eassumption|]. split.
    + intros [n' p'] Hx E. simpl in E.
      assert (Hp' : sfind n' (typedMap PointCloud (st g)) = Some p')
        by (apply sorted_sfind; [apply (proj1 Hsorted PointCloud)|exact Hx]).
      destruct (Hdist _ _ _ _ _ _ Hp' Hq0 E) as (<- & _). congruence.
    + intros [n' p'] Hx E. simpl in E.
      assert (Hp' : sfind n' (typedMap SurfaceMesh (st g)) = Some p')
        by (apply sorted_sfind; [apply (proj1 Hsorted SurfaceMesh)|exact Hx]).
      destruct (Hdist _ _ _ _ _ _ Hp' Hq0 E) as (<- & _). congruence.
  - intros t n q. rewrite Ec. unfold cat_at. simpl. discriminate.
  - intros t1 n1 p1 t2 n2 p2 H1 H2.
    destruct (Htyped _ _ _ H1) as (H1' & _).
    destruct (Htyped _ _ _ H2) as (H2' & _).
    now apply (Hdist t1 n1 p1 t2 n2 p2).
  - intros a Ha. rewrite Hnext. apply Hbelow. now apply Hheap in Ha.
  - unfold selection_live. now rewrite Esel.
Qed.

Lemma memory_safe_initial v o : memory_safe (set_opts o (initial v)).
Proof.
  split; [|split; [|split; [|split; [|split]]]].
  - split; [|split].
    + intros []; constructor.
    + simpl. repeat constructor.
    + simpl. intros cat H.
      repeat (destruct H as [<- | H]; [constructor|]). destruct H.
  - intros [] n p; discriminate.
  - intros [] n p; discriminate.
  - intros [] n p t' n' p'; discriminate.
  - intros a [].
  - exact I.
Qed.

Lemma memory_safe_run_op g op : memory_safe g -> memory_safe (run_op g op).
Proof.
  intros H. destruct op as [t name geom r | name |]; simpl.
  - now apply memory_safe_registerStructure.
  - now apply memory_safe_removeStructure.
  - now apply memory_safe_removeAllStructures.
Qed.

Lemma memory_safe_run_ops ops : forall g,
  memory_safe g -> memory_safe (run_ops ops g).
Proof.
  induction ops as [|op ops IH]; intros g H; [assumption|].
  simpl. apply IH. now apply memory_safe_run_op.
Qed.

Lemma memory_safe_liveStructures g :
  memory_safe g ->
  forall s, In s (liveStructures (st g)) -> In (Structure.addr s) (heap g).
Proof.
  intros ((_ & Hcs & Hinner) & Hlive & Hcats & _) s Hin.
  unfold liveStructures in Hin. apply in_flat_map in Hin.
  destruct Hin as ([t m] & Hcat & Hs). unfold stdmap.values in Hs.
  apply in_map_iff in Hs. destruct Hs as ([n p] & <- & Hnp). simpl in *.
  apply (Hlive t n). apply Hcats.
  rewrite (cat_at_entry t m _ Hcs Hcat).
  apply sorted_sfind; [apply (Hinner _ Hcat)|assumption].
Qed.

(** No sequence of registers, removes and [removeAllStructures], with
    [options::exceptionOnError] on or off, leaves a dangling pointer: from
    globals where the maps and the selection hold allocated structures
    only, and so from the initial ones, every structure that the typed
    maps hold, every structure that the loops over the categories visit
    ([updateStructureExtents], the draw loops, the pick pass) and the
    structure the selection references are allocated after each
    operation. *)
Theorem no_dangling_pointer :
  forall ops g,
    memory_safe g ->
    let g' := run_ops ops g in
    memory_safe g'
    /\ (forall s, In s (liveStructures (st g')) ->
                  In (Structure.addr s) (heap g'))
    /\ (forall t kind name p g'',
          getStructure t kind name g' = Return (Some p) g'' ->
          In (Structure.addr p) (heap g'))
    /\ selection_live g'.
Proof.
  intros ops g Hsafe g'.
  assert (H : memory_safe g') by now apply memory_safe_run_ops.
  split; [exact H|]. split; [now apply memory_safe_liveStructures|]. split.
  - intros t kind name p g'' Hget.
    destruct H as (_ & Hlive & _). apply (Hlive t name).
    unfold getStructure, bind, get in Hget.
    destruct (sfind name (typedMap t (st g'))) as [q|]; [|].
    + unfold ret in Hget. now injection Hget as -> _.
    + unfold error, ret in Hget.
      destruct (options.exceptionOnError (opts g')); discriminate Hget.
  - apply H.
Qed.

Lemma no_dangling_pointer_witness :
  let ops := [ Register CameraView "c" unitBox false;
               Register RaySet "r" farBox false;
               RemoveAll;
               Register RaySet "c" farBox false;
               Register PointCloud "c" unitBox false;
               Remove "c" ] in
  let g := run_ops ops (logAndContinue (initial exampleView)) in
  memory_safe (logAndContinue (initial exampleView))
  /\ map Structure.addr (liveStructures (st g)) = [2%nat]
  /\ heap g = [2%nat; 1%nat]
  /\ forall s, In s (liveStructures (st g)) -> In (Structure.addr s) (heap g).
Proof.
  intros ops g.
  assert (Hsafe : memory_safe (logAndContinue (initial exampleView)))
    by apply memory_safe_initial.
  destruct (no_dangling_pointer ops _ Hsafe) as (_ & Hlive & _).
  split; [exact Hsafe|]. split; [vm_compute; reflexivity|].
  split; [vm_compute; reflexivity|]. exact Hlive.
Defined.

(** ** Ownership under register and remove *)

Lemma no_leak_ext g g' :
  st g' = st g -> heap g' = heap g -> no_leak g -> no_leak g'.
Proof. unfold no_leak. intros -> ->. auto. Qed.

Lemma no_leak_removeStructure name g :
  no_leak g -> no_leak (after (removeStructure name g)).
Proof.
  intros Hleak.
  destruct (removeStructure_find name (st g)) as [[t p]|] eqn:E.
  - rewrite (removeStructure_found _ _ _ _ E). cbn [after].
    pose proof (removeStructure_find_typed _ _ _ _ E) as Hp.
    rewrite removeStructure_statements_result.
    intros a Ha. cbn [heap st] in *. apply in_remove in Ha.
    destruct Ha as (Ha & Hne).
    destruct (Hleak a Ha) as (t1 & n1 & p1 & H1 & E1).
    exists t1, n1, p1. split; [|assumption].
    rewrite typed_after_erase.
    destruct (StructureType_eq_dec t1 t) as [-> |]; [|assumption].
    destruct (string_dec n1 name) as [-> |]; [|assumption].
    congruence.
  - rewrite (removeStructure_not_found _ _ E). unfold error.
    destruct (options.exceptionOnError (opts g)); cbn [after];
      [assumption|].
    now apply (no_leak_ext g).
Qed.

Lemma no_leak_register_statements t name geom g :
  (forall t', sfind name (typedMap t' (st g)) = None) ->
  no_leak g ->
  no_leak
    (after ((p <- new t name geom ;;
             modify (set_st (set_typedMap t (sassign name p))) ;;;
             modify (set_st (set_structureCategories
                               (cat_update t (sassign name p)))) ;;;
             modify updateStructureExtents) g)).
Proof.
  intros Hfree Hleak. rewrite register_statements_result. cbn [after].
  intros a Ha. cbn [heap st] in *. destruct Ha as [<- | Ha].
  - exists t, name,
      (Structure.mk (nextAddr g) name t (geomBoundingBox geom)
                    (geomLengthScale geom)).
    split; [|reflexivity]. rewrite typed_after_assign.
    destruct (StructureType_eq_dec t t); [|congruence].
    destruct (string_dec name name); [reflexivity|congruence].
  - destruct (Hleak a Ha) as (t1 & n1 & p1 & H1 & E1).
    exists t1, n1, p1. split; [|assumption].
    rewrite typed_after_assign.
    destruct (StructureType_eq_dec t1 t) as [-> |]; [|assumption].
    destruct (string_dec n1 name) as [-> |]; [|assumption].
    rewrite Hfree in H1. discriminate H1.
Qed.

Lemma no_leak_registerStructure t name geom replaceIfPresent g :
  names_unique g /\ maps_agree g ->
  no_leak g ->
  no_leak (after (registerStructure t name geom replaceIfPresent g)).
Proof.
  intros Hinv Hleak. rewrite registerStructure_steps.
  destruct (checkStructureNameInUse_ends name (negb replaceIfPresent) g)
    as [(Hfree & Hr) | [(_ & _ & Hr) | [(_ & _ & Hlog & Hr) | (_ & _ & _ & Hr)]]];
    rewrite Hr.
  - unfold ret. apply no_leak_register_statements; [|assumption].
    intros t'. rewrite (proj2 Hinv).
    destruct (sfind name (cat_at t' (state.structureCategories (st g))))
      eqn:E; [|reflexivity].
    exfalso. apply Hfree. eapply nameInUse_cat_at. eassumption.
  - pose proof (no_leak_removeStructure name g Hleak) as Hrem.
    destruct (invariant_removeStructure name g Hinv) as [_ Hfree].
    destruct (removeStructure name g) as [[] g1 | e g1]; cbn [after] in Hrem.
    + apply no_leak_register_statements; [|assumption].
      now apply (Hfree tt g1).
    + exact Hrem.
  - match goal with |- context [removeStructure name ?g0] =>
      assert (Hinv0 : names_unique g0 /\ maps_agree g0)
        by (now apply (invariant_of_state g));
      assert (Hleak0 : no_leak g0) by (now apply (no_leak_ext g));
      pose proof (no_leak_removeStructure name g0 Hleak0) as Hrem;
      destruct (invariant_removeStructure name g0 Hinv0) as [_ Hfree];
      destruct (removeStructure name g0) as [[] g1 | e g1]
    end; cbn [after] in Hrem.
    + apply no_leak_register_statements; [|assumption].
      now apply (Hfree tt g1).
    + exact Hrem.
  - exact Hleak.
Qed.

Lemma owned_run_ops ops : forall g,
  Forall register_or_remove ops ->
  names_unique g /\ maps_agree g -> no_leak g ->
  (names_unique (run_ops ops g) /\ maps_agree (run_ops ops g))
  /\ no_leak (run_ops ops g).
Proof.
  induction ops as [|op ops IH]; intros g Hops Hinv Hleak; [auto|].
  inversion Hops as [|? ? Hop Hrest]; subst. simpl.
  destruct op as [t name geom r | name |]; simpl.
  - apply IH; [assumption| |].
    + now apply invariant_registerStructure.
    + now apply no_leak_registerStructure.
  - apply IH; [assumption| |].
    + now apply invariant_removeStructure.
    + now apply no_leak_removeStructure.
  - destruct Hop.
Qed.

(** The registry owns the structures: after any sequence of registers
    and removes, with [options::exceptionOnError] on or off, the
    allocated structures are exactly the ones the typed maps hold; none
    is leaked and none that is held has been deleted. *)
Theorem registry_owns_structures :
  forall ops g,
    Forall register_or_remove ops ->
    names_unique g /\ maps_agree g ->
    memory_safe g -> no_leak g ->
    let g' := run_ops ops g in
    forall a,
      In a (heap g')
      <-> exists t n p, sfind n (typedMap t (st g')) = Some p
                        /\ Structure.addr p = a.
Proof.
  intros ops g Hops Hinv Hsafe Hleak g' a.
  destruct (owned_run_ops ops g Hops Hinv Hleak) as (_ & Hleak').
  pose proof (memory_safe_run_ops ops g Hsafe) as (_ & Hlive & _).
  split.
  - apply Hleak'.
  - intros (t & n & p & Hp & <-). eapply Hlive. eassumption.
Qed.

Lemma registry_owns_structures_witness :
  let ops := [ Register PointCloud "a" unitBox false;
               Register SurfaceMesh "b" farBox false;
               Register CameraView "a" farBox true;
               Remove "b";
               Remove "zz" ] in
  let g := run_ops ops (initial exampleView) in
  Forall register_or_remove ops
  /\ heap g = [2%nat]
  /\ forall a,
       In a (heap g)
       <-> exists t n p, sfind n (typedMap t (st g)) = Some p
                         /\ Structure.addr p = a.
Proof.
  intros ops g.
  assert (Hops : Forall register_or_remove ops)
    by (repeat constructor).
  assert (Hleak : no_leak (initial exampleView)) by (intros a []).
  split; [exact Hops|]. split; [vm_compute; reflexivity|].
  apply (registry_owns_structures ops (initial exampleView) Hops
           (invariant_initial exampleView)
           (memory_safe_initial exampleView options.init) Hleak).
Defined.

(** ** Replacing and removing a registered name *)

Lemma removeStructure_find_unique name g t0 p0 :
  names_unique g ->
  sfind name (typedMap t0 (st g)) = Some p0 ->
  removeStructure_find name (st g) = Some (t0, p0).
Proof.
  intros Huniq Hp0.
  destruct (removeStructure_find name (st g)) as [[t1 p1]|] eqn:E.
  - pose proof (removeStructure_find_typed _ _ _ _ E) as Hp1.
    assert (t1 = t0) by (apply (Huniq t1 t0 name); congruence).
    subst t1. congruence.
  - rewrite (removeStructure_find_none _ _ E t0) in Hp0. discriminate Hp0.
Qed.

Lemma not_nameInUse_of_typed name g :
  maps_agree g -> maps_sorted g ->
  (forall t, sfind name (typedMap t (st g)) = None) ->
  ~ nameInUse name g.
Proof.
  intros Hagree (_ & Hcs & _) Hfree ([t m] & Hin & Hm). simpl in Hm.
  apply Hm. rewrite <- (cat_at_entry t m _ Hcs Hin), <- Hagree. apply Hfree.
Qed.

(** In a registry where each name is in one category and the maps hold
    allocated structures, registering a name that is in use with
    [replaceIfPresent = true] returns and prints nothing: the structure
    that had the name, of whatever category, is deleted, a selection that
    referenced it is cleared, and the name belongs to the new structure
    alone. *)
Theorem register_replaces :
  forall t name geom g t0 p0,
    names_unique g /\ maps_agree g ->
    memory_safe g ->
    sfind name (typedMap t0 (st g)) = Some p0 ->
    let p := Structure.mk (nextAddr g) name t (geomBoundingBox geom)
                          (geomLengthScale geom) in
    exists g',
      registerStructure t name geom true g = Return tt g'
      /\ cout g' = cout g
      /\ sfind name (typedMap t (st g')) = Some p
      /\ (forall t', t' <> t -> sfind name (typedMap t' (st g')) = None)
      /\ heap g'
         = Structure.addr p
           :: List.remove Nat.eq_dec (Structure.addr p0) (heap g)
      /\ ~ In (Structure.addr p0) (heap g')
      /\ selection g'
         = pick.clearPickIfStructureSelected p0 (selection g).
Proof.
  intros t name geom g t0 p0 Hinv Hsafe Hp0 p.
  assert (Huse : nameInUse name g).
  { eapply nameInUse_cat_at. rewrite <- (proj2 Hinv). eassumption. }
  rewrite registerStructure_steps. simpl negb.
  rewrite (checkStructureNameInUse_quiet _ _ Huse).
  pose proof (removeStructure_find_unique name g t0 p0 (proj1 Hinv) Hp0)
    as Hfind.
  rewrite (removeStructure_found _ _ _ _ Hfind).
  rewrite removeStructure_statements_result, register_statements_result.
  cbn [nextAddr]. fold p. eexists. split; [reflexivity|].
  cbn [cout st heap selection].
  destruct (invariant_removeStructure_statements t0 name p0 g Hinv)
    as (_ & Hfree); [congruence|].
  rewrite removeStructure_statements_result in Hfree. cbn [st] in Hfree.
  split; [reflexivity|]. split; [|split; [|split; [reflexivity|split]]].
  - rewrite typed_after_assign.
    destruct (StructureType_eq_dec t t); [|congruence].
    destruct (string_dec name name); congruence.
  - intros t' Hne. rewrite typed_after_assign.
    destruct (StructureType_eq_dec t' t); [contradiction|apply Hfree].
  - destruct Hsafe as (_ & Hlive & _ & _ & Hbelow & _).
    pose proof (Hbelow _ (Hlive _ _ _ Hp0)) as Hlt.
    intros [E | Hin].
    + simpl in E. lia.
    + now apply remove_In in Hin.
  - reflexivity.
Qed.

Lemma selectedCloud_invariant :
  (names_unique selectedCloud /\ maps_agree selectedCloud)
  /\ memory_safe selectedCloud.
Proof.
  pose proof (invariant_registerStructure PointCloud "a" unitBox false
                (initial exampleView) (invariant_initial exampleView)) as Hinv.
  pose proof (memory_safe_registerStructure PointCloud "a" unitBox false
                (initial exampleView)
                (memory_safe_initial exampleView options.init))
    as (A & B & C & D & E & _).
  split; [exact Hinv|].
  repeat (split; [assumption|]). left. reflexivity.
Qed.

Lemma register_replaces_witness :
  sfind "a" (typedMap PointCloud (st selectedCloud))
  = Some (Structure.mk 0 "a" PointCloud (mkVector3 0 0 0, mkVector3 1 1 1) 1)
  /\ selection selectedCloud = pick.Selected 0 5
  /\ exists g',
       registerStructure RaySet "a" farBox true selectedCloud = Return tt g'
       /\ sfind "a" (typedMap PointCloud (st g')) = None
       /\ heap g' = [1%nat]
       /\ selection g' = pick.NoSelection.
Proof.
  assert (Hp0 : sfind "a" (typedMap PointCloud (st selectedCloud))
                = Some (Structure.mk 0 "a" PointCloud
                          (mkVector3 0 0 0, mkVector3 1 1 1) 1))
    by (vm_compute; reflexivity).
  destruct selectedCloud_invariant as (Hinv & Hsafe).
  destruct (register_replaces RaySet "a" farBox selectedCloud PointCloud _
              Hinv Hsafe Hp0)
    as (g' & Hr & _ & _ & Hold & Hheap & _ & Hsel).
  split; [exact Hp0|]. split; [reflexivity|].
  exists g'. split; [exact Hr|]. split; [apply Hold; discriminate|].
  split; [rewrite Hheap; vm_compute; reflexivity|].
  rewrite Hsel. reflexivity.
Defined.

Lemma error_is_reported message g : reported message g (error message g).
Proof.
  unfold reported, error.
  destruct (options.exceptionOnError (opts g)); [reflexivity|].
  exists tt. eexists. exists []. split; reflexivity.
Qed.

(** In such a registry, [removeStructure] on a name that is in use
    returns and prints nothing: the structure is deleted and the name is
    free again, so that its lookup and a second removal go through
    [error], and a register function that is not allowed to replace
    accepts the name. *)
Theorem remove_frees_name :
  forall name g t0 p0,
    names_unique g /\ maps_agree g ->
    memory_safe g ->
    sfind name (typedMap t0 (st g)) = Some p0 ->
    exists g',
      removeStructure name g = Return tt g'
      /\ cout g' = cout g
      /\ heap g' = List.remove Nat.eq_dec (Structure.addr p0) (heap g)
      /\ ~ In (Structure.addr p0) (heap g')
      /\ (forall t, sfind name (typedMap t (st g')) = None)
      /\ ~ nameInUse name g'
      /\ reported ("No structure named: " ++ name ++ " to remove.") g'
           (removeStructure name g')
      /\ (forall t geom, exists g'',
             registerStructure t name geom false g' = Return tt g'').
Proof.
  intros name g t0 p0 Hinv Hsafe Hp0.
  pose proof (removeStructure_find_unique name g t0 p0 (proj1 Hinv) Hp0)
    as Hfind.
  rewrite (removeStructure_found _ _ _ _ Hfind).
  destruct (invariant_removeStructure_statements t0 name p0 g Hinv)
    as (Hinv' & Hfree); [congruence|].
  pose proof (memory_safe_removeStructure_statements t0 name p0 g Hsafe Hp0)
    as Hsafe'.
  set (g' := run_statements (removeStructure_statements t0 name p0) g) in *.
  assert (Hnot : ~ nameInUse name g').
  { apply not_nameInUse_of_typed; [apply Hinv'|apply Hsafe'|exact Hfree]. }
  exists g'. split; [reflexivity|]. split; [reflexivity|].
  split; [reflexivity|]. split; [apply remove_In|].
  split; [exact Hfree|]. split; [exact Hnot|]. split.
  - rewrite removeStructure_not_found; [apply error_is_reported|].
    destruct (removeStructure_find name (st g')) as [[t1 p1]|] eqn:E;
      [|reflexivity].
    apply removeStructure_find_typed in E. rewrite Hfree in E. discriminate E.
  - intros t geom. rewrite registerStructure_steps.
    rewrite (checkStructureNameInUse_free _ _ _ Hnot). unfold ret.
    rewrite register_statements_result. eexists. reflexivity.
Qed.

Lemma remove_frees_name_witness :
  sfind "a" (typedMap PointCloud (st selectedCloud))
  = Some (Structure.mk 0 "a" PointCloud (mkVector3 0 0 0, mkVector3 1 1 1) 1)
  /\ exists g',
       removeStructure "a" selectedCloud = Return tt g'
       /\ heap g' = []
       /\ ~ nameInUse "a" g'.
Proof.
  assert (Hp0 : sfind "a" (typedMap PointCloud (st selectedCloud))
                = Some (Structure.mk 0 "a" PointCloud
                          (mkVector3 0 0 0, mkVector3 1 1 1) 1))
    by (vm_compute; reflexivity).
  destruct selectedCloud_invariant as (Hinv & Hsafe).
  destruct (remove_frees_name "a" selectedCloud PointCloud _ Hinv Hsafe Hp0)
    as (g' & Hr & _ & Hheap & _ & _ & Hnot & _).
  split; [exact Hp0|]. exists g'. split; [exact Hr|].
  split; [rewrite Hheap; vm_compute; reflexivity|exact Hnot].
Defined.

(** * Initialisation and pick queries *)




(** A pick query returns, and writes the selection and the pick buffer
    only: the registry, the extent, the heap, the options, the viewport
    and the output are as before, and so is the framebuffer of the pick
    target. *)
Theorem pick_query_frame :
  forall radix owner rendered dbl xPos yPos g,
  exists g',
    evaluatePickQuery radix owner rendered dbl xPos yPos g = Return tt g'
    /\ st g' = st g /\ heap g' = heap g /\ nextAddr g' = nextAddr g
    /\ opts g' = opts g /\ vw g' = vw g /\ cout g' = cout g
    /\ pickbuf.pickFramebuffer (pb g') = pickbuf.pickFramebuffer (pb g).
Proof.
  intros radix owner rendered dbl xPos yPos g.
  unfold evaluatePickQuery, bind, get.
  destruct (negb _ || negb _).
  - unfold allocatePickRenderbuffers, glGen, bind, modify, get. simpl.
    destruct (pick.vecToInd radix _ =? 0); simpl;
      eexists; (split; [reflexivity|]); repeat split; reflexivity.
  - unfold ret, modify. simpl.
    destruct (pick.vecToInd radix _ =? 0); simpl;
      eexists; (split; [reflexivity|]); repeat split; reflexivity.
Qed.

(** * The colour palette, five calls at a time *)

(** Five calls in a row return the five palette colours, each once, in
    the order of the palette from the entry the first of them returns
    on. *)
Theorem palette_five_calls :
  forall randoms i,
    List.length randoms = 5%nat ->
    Forall (fun r => 0 <= r <= 4) randoms ->
    i = -1 \/ 0 <= i <= 4 ->
    let k := Z.to_nat (if i =? -1 then hd 0 randoms else i) in
    let colours := map Some palette.paletteColors in
    palette.calls randoms i = skipn k colours ++ firstn k colours
    /\ Permutation (palette.calls randoms i) colours.
Proof.
  intros randoms i Hlen Hall Hi k colours.
  assert (E : palette.calls randoms i = skipn k colours ++ firstn k colours).
  { destruct randoms as [|r1 [|r2 [|r3 [|r4 [|r5 [|]]]]]]; try discriminate.
    inversion Hall as [|? ? Hr1 _]; subst. subst k. simpl hd.
    assert (Hcases : i = -1 \/ i = 0 \/ i = 1 \/ i = 2 \/ i = 3 \/ i = 4)
      by lia.
    destruct Hcases as [-> | [-> | [-> | [-> | [-> | ->]]]]];
      try reflexivity.
    assert (Hr : r1 = 0 \/ r1 = 1 \/ r1 = 2 \/ r1 = 3 \/ r1 = 4) by lia.
    destruct Hr as [-> | [-> | [-> | [-> | ->]]]]; reflexivity. }
  split; [exact E|]. rewrite E.
  rewrite Permutation_app_comm, firstn_skipn. apply Permutation_refl.
Qed.

Lemma palette_five_calls_witness :
  Forall (fun r => 0 <= r <= 4) [2; 0; 4; 1; 3]
  /\ palette.calls [2; 0; 4; 1; 3] (-1)
     = [ Some (38, 166, 154); Some (255, 167, 38); Some (38, 198, 218);
         Some (171, 71, 188); Some (66, 165, 245) ].
Proof.
  assert (Hall : Forall (fun r => 0 <= r <= 4) [2; 0; 4; 1; 3])
    by (repeat constructor; lia).
  destruct (palette_five_calls [2; 0; 4; 1; 3] (-1) eq_refl Hall
              (or_introl eq_refl)) as (E & _).
  split; [exact Hall|]. exact E.
Defined.

(** * Screenshot names *)


Lemma usize_nb_digits d : DecimalPos.Unsigned.usize d = N.of_nat (Decimal.nb_digits d).
Proof.
  induction d; simpl DecimalPos.Unsigned.usize; simpl Decimal.nb_digits;
    rewrite ?IHd, ?Nat2N.inj_succ; reflexivity.
Qed.

Lemma of_uint_leading d1 k :
  (k (Decimal.Nil) <> Decimal.D0 Decimal.Nil) ->
  (k = Decimal.D0 \/ k = Decimal.D1 \/ k = Decimal.D2 \/ k = Decimal.D3 \/ k = Decimal.D4 \/ k = Decimal.D5 \/ k = Decimal.D6 \/ k = Decimal.D7
   \/ k = Decimal.D8 \/ k = Decimal.D9) ->
  (10 ^ DecimalPos.Unsigned.usize d1 <= N.of_uint (k d1))%N.
Proof.
  intros Hnz Hk. unfold N.of_uint. rewrite DecimalPos.Unsigned.of_uint_alt.
  assert (E : Decimal.rev (k d1) = Decimal.revapp d1 (k Decimal.Nil)).
  { destruct Hk as [-> | [-> | [-> | [-> | [-> | [-> | [-> | [-> | [-> | ->]]]]]]]]];
      reflexivity. }
  rewrite E, DecimalPos.Unsigned.of_lu_revapp.
  assert (H1 : (1 <= DecimalPos.Unsigned.of_lu (k Decimal.Nil))%N).
  { destruct Hk as [-> | [-> | [-> | [-> | [-> | [-> | [-> | [-> | [-> | ->]]]]]]]]];
      try (vm_compute; discriminate). congruence. }
  nia.
Qed.

Lemma to_uint_normal n : Decimal.unorm (N.to_uint n) = N.to_uint n.
Proof.
  rewrite <- DecimalN.Unsigned.to_of. now rewrite DecimalN.Unsigned.of_to.
Qed.

Lemma to_uint_digits n k :
  (n < 10 ^ N.of_nat k)%N -> (0 < k)%nat ->
  (Decimal.nb_digits (N.to_uint n) <= k)%nat.
Proof.
  intros Hn Hk.
  pose proof (DecimalN.Unsigned.of_to n) as Hof.
  pose proof (to_uint_normal n) as Hnorm.
  assert (Hlead : forall (c : Decimal.uint -> Decimal.uint) d1,
             N.to_uint n = c d1 -> c Decimal.Nil <> Decimal.D0 Decimal.Nil ->
             (c = Decimal.D0 \/ c = Decimal.D1 \/ c = Decimal.D2 \/ c = Decimal.D3 \/ c = Decimal.D4 \/ c = Decimal.D5
              \/ c = Decimal.D6 \/ c = Decimal.D7 \/ c = Decimal.D8 \/ c = Decimal.D9) ->
             (forall x, Decimal.nb_digits (c x) = S (Decimal.nb_digits x)) ->
             (Decimal.nb_digits (N.to_uint n) <= k)%nat).
  { intros c d1 E Hnz Hc Hnb.
    pose proof (of_uint_leading d1 c Hnz Hc) as Hle.
    rewrite <- E, Hof, usize_nb_digits in Hle.
    assert (Hlt : (10 ^ N.of_nat (Decimal.nb_digits d1) < 10 ^ N.of_nat k)%N) by lia.
    apply N.pow_lt_mono_r_iff in Hlt; [|lia].
    rewrite E, Hnb. lia. }
  destruct (N.to_uint n) as [|d1|d1|d1|d1|d1|d1|d1|d1|d1|d1] eqn:E.
  - simpl. lia.
  - change (Decimal.unorm d1 = Decimal.D0 d1) in Hnorm.
    assert (Hd1 : d1 = Decimal.Nil \/ d1 <> Decimal.Nil)
      by (destruct d1; [now left|right; discriminate..]).
    destruct Hd1 as [-> | Hd1]; [simpl; lia|].
    pose proof (DecimalFacts.nb_digits_unorm d1 Hd1) as Hu. rewrite Hnorm in Hu.
    simpl in Hu. lia.
  - apply (Hlead Decimal.D1 d1); auto 20; discriminate.
  - apply (Hlead Decimal.D2 d1); auto 20; discriminate.
  - apply (Hlead Decimal.D3 d1); auto 20; discriminate.
  - apply (Hlead Decimal.D4 d1); auto 20; discriminate.
  - apply (Hlead Decimal.D5 d1); auto 20; discriminate.
  - apply (Hlead Decimal.D6 d1); auto 20; discriminate.
  - apply (Hlead Decimal.D7 d1); auto 20; discriminate.
  - apply (Hlead Decimal.D8 d1); auto 20; discriminate.
  - apply (Hlead Decimal.D9 d1); auto 20; discriminate.
Qed.

Lemma length_string_of_uint d :
  String.length (DecimalString.NilEmpty.string_of_uint d) = Decimal.nb_digits d.
Proof. induction d; simpl; congruence. Qed.

Lemma nb_digits_zeros j d :
  Decimal.nb_digits (screenshots.pad_zeros j d) = (j + Decimal.nb_digits d)%nat.
Proof. induction j; simpl; congruence. Qed.

Lemma of_uint_zeros j d : N.of_uint (screenshots.pad_zeros j d) = N.of_uint d.
Proof. induction j; simpl; [reflexivity|exact IHj]. Qed.

Lemma string_of_uint_inj d d' :
  DecimalString.NilEmpty.string_of_uint d = DecimalString.NilEmpty.string_of_uint d' -> d = d'.
Proof.
  intros E. apply (f_equal DecimalString.NilEmpty.uint_of_string) in E.
  rewrite !DecimalString.NilEmpty.usu in E. congruence.
Qed.

Lemma substring_all n s :
  (String.length s <= n)%nat -> substring 0 n s = s.
Proof.
  revert n. induction s as [|c s IH]; intros [|n] H; simpl in *;
    try reflexivity; try lia.
  f_equal. apply IH. lia.
Qed.

Lemma string_length_append s1 s2 :
  String.length (s1 ++ s2) = (String.length s1 + String.length s2)%nat.
Proof. induction s1; simpl; congruence. Qed.

Lemma append_cancel_l s a b : (s ++ a = s ++ b)%string -> a = b.
Proof. induction s; simpl; [auto|]. intros [= H]. auto. Qed.

Lemma append_cancel_r s : forall a b, (a ++ s = b ++ s)%string -> a = b.
Proof.
  induction a as [|c a IH]; intros [|c' b] E; simpl in E.
  - reflexivity.
  - apply (f_equal String.length) in E. simpl in E.
    rewrite string_length_append in E. lia.
  - apply (f_equal String.length) in E. simpl in E.
    rewrite string_length_append in E. lia.
  - injection E as -> E. f_equal. auto.
Qed.

Lemma format_06zu_length n :
  (n < 2 ^ 64)%N ->
  (6 <= String.length (screenshots.format_06zu n) <= 20)%nat
  /\ ((n < 10 ^ 6)%N -> String.length (screenshots.format_06zu n) = 6%nat).
Proof.
  intros Hn. unfold screenshots.format_06zu.
  rewrite length_string_of_uint, nb_digits_zeros.
  assert (H20 : (Decimal.nb_digits (N.to_uint n) <= 20)%nat).
  { apply to_uint_digits; [|lia].
    eapply N.lt_trans; [exact Hn|]. reflexivity. }
  split; [lia|]. intros H6.
  assert (H : (Decimal.nb_digits (N.to_uint n) <= 6)%nat)
    by (apply to_uint_digits; [exact H6|lia]).
  lia.
Qed.

Lemma format_06zu_inj n n' :
  screenshots.format_06zu n = screenshots.format_06zu n' -> n = n'.
Proof.
  unfold screenshots.format_06zu. intros E.
  apply string_of_uint_inj in E. apply (f_equal N.of_uint) in E.
  rewrite !of_uint_zeros, !DecimalN.Unsigned.of_to in E. exact E.
Qed.

(** The default name of a screenshot is never cut short by the buffer of
    50 characters; it has six digits as long as the counter is below a
    million and at most twenty after; and two counters give two names, so
    that no screenshot of a run overwrites another. *)
Theorem screenshot_names :
  forall a b,
    0 <= a < 2 ^ 64 -> 0 <= b < 2 ^ 64 ->
    screenshots.defaultName a
    = ("screenshot_" ++ screenshots.format_06zu (Z.to_N a) ++ ".png")%string
    /\ (15 + 6 <= String.length (screenshots.defaultName a) <= 15 + 20)%nat
    /\ (a < 10 ^ 6 -> String.length (screenshots.defaultName a) = 21%nat)
    /\ (screenshots.defaultName a = screenshots.defaultName b -> a = b)
    /\ (a <> b ->
        fst (screenshots.screenshot a) <> fst (screenshots.screenshot b)).
Proof.
  intros a b Ha Hb.
  assert (Hfull : forall c, 0 <= c < 2 ^ 64 ->
             (Z.to_N c < 2 ^ 64)%N
             /\ String.length
                  ("screenshot_" ++ screenshots.format_06zu (Z.to_N c) ++ ".png")
                = (15 + String.length (screenshots.format_06zu (Z.to_N c)))%nat
             /\ screenshots.defaultName c
                = ("screenshot_" ++ screenshots.format_06zu (Z.to_N c)
                   ++ ".png")%string).
  { intros c Hc.
    assert (HN : (Z.to_N c < 2 ^ 64)%N).
    { change (2 ^ 64)%N with (Z.to_N (2 ^ 64)). apply Z2N.inj_lt; lia. }
    assert (Hlen : String.length
                     ("screenshot_" ++ screenshots.format_06zu (Z.to_N c)
                      ++ ".png")
                   = (15 + String.length (screenshots.format_06zu (Z.to_N c)))%nat).
    { rewrite !string_length_append. simpl. lia. }
    split; [exact HN|]. split; [exact Hlen|].
    unfold screenshots.defaultName. apply substring_all. rewrite Hlen.
    destruct (format_06zu_length _ HN) as [H _]. lia. }
  destruct (Hfull a Ha) as (HNa & Hlena & Ea).
  destruct (Hfull b Hb) as (HNb & Hlenb & Eb).
  destruct (format_06zu_length _ HNa) as [Hrange H6].
  assert (Hinj : screenshots.defaultName a = screenshots.defaultName b -> a = b).
  { rewrite Ea, Eb. intros E. apply append_cancel_l in E.
    apply append_cancel_r in E. apply format_06zu_inj in E.
    apply Z2N.inj in E; lia. }
  split; [exact Ea|]. split; [rewrite Ea, Hlena; lia|]. split; [|split].
  - intros Hsmall. rewrite Ea, Hlena, H6; [reflexivity|].
    change (10 ^ 6)%N with (Z.to_N (10 ^ 6)). apply Z2N.inj_lt; lia.
  - exact Hinj.
  - intros Hne E. apply Hne. apply Hinj. exact E.
Qed.

Lemma screenshot_names_witness :
  0 <= 7 < 2 ^ 64 /\ 0 <= 1234567 < 2 ^ 64
  /\ screenshots.screenshot 7 = ("screenshot_000007.png"%string, 8)
  /\ screenshots.defaultName 1234567 = "screenshot_1234567.png"%string
  /\ String.length (screenshots.defaultName 7) = 21%nat
  /\ fst (screenshots.screenshot 7) <> fst (screenshots.screenshot 1234567).
Proof.
  assert (Ha : 0 <= 7 < 2 ^ 64) by lia.
  assert (Hb : 0 <= 1234567 < 2 ^ 64) by lia.
  destruct (screenshot_names 7 1234567 Ha Hb) as (_ & _ & Hlen & _ & Hne).
  split; [exact Ha|]. split; [exact Hb|]. split; [reflexivity|].
  split; [reflexivity|]. split; [apply Hlen; lia|]. apply Hne. lia.
Defined.

(** * Mouse events *)

Lemma evaluatePickQuery_returns radix owner rendered dbl xPos yPos g :
  exists g',
    evaluatePickQuery radix owner rendered dbl xPos yPos g = Return tt g'
    /\ st g' = st g /\ heap g' = heap g /\ nextAddr g' = nextAddr g
    /\ opts g' = opts g /\ vw g' = vw g /\ cout g' = cout g.
Proof.
  unfold evaluatePickQuery, bind, get.
  destruct (negb _ || negb _).
  - unfold allocatePickRenderbuffers, glGen, bind, modify, get. simpl.
    destruct (pick.vecToInd radix _ =? 0); simpl;
      eexists; (split; [reflexivity|]); repeat split; reflexivity.
  - unfold ret, modify. simpl.
    destruct (pick.vecToInd radix _ =? 0); simpl;
      eexists; (split; [reflexivity|]); repeat split; reflexivity.
Qed.

Lemma processFrames_app radix owner a b : forall m g,
  processFrames radix owner (a ++ b) m g
  = match processFrames radix owner a m g with
    | Some (Return m' g') => processFrames radix owner b m' g'
    | r => r
    end.
Proof.
  induction a as [|f a IH]; intros m g; [reflexivity|].
  simpl. destruct (processMouseEvents radix owner f m) as [run|]; [|reflexivity].
  destruct (run g) as [m' g'|e g']; [apply IH|reflexivity].
Qed.

(** What one frame does, by the kind of the frame. *)
Lemma processFrames_one radix owner f m g :
  (released f = true -> pickArguments (io f) <> None) ->
  exists m' g',
    processFrames radix owner [f] m g = Some (Return m' g')
    /\ (st g' = st g /\ heap g' = heap g /\ nextAddr g' = nextAddr g
        /\ opts g' = opts g /\ vw g' = vw g /\ cout g' = cout g)
    /\ processMouseDrag m'
       = processMouseDrag m
         ++ (if dragging f
             then [(dragDelta (io f) (vw g), negb (ImGui.KeyShift (io f)))]
             else [])
    /\ (released f = false -> g' = g)
    /\ (dragging f = false ->
        dragDistSinceLastRelease m = 0%float ->
        dragDistSinceLastRelease m' = 0%float)
    /\ (dragging f = false -> released f = false -> m' = m)
    /\ (released f = true -> dragDistSinceLastRelease m' = 0%float)
    /\ (released f = true ->
        (dragDistSinceLastRelease m <? 0x1.47ae147ae147bp-7)%float = true ->
        exists x y,
          pickArguments (io f) = Some (x, y)
          /\ evaluatePickQuery radix owner (pickPixels f)
               (ImGui.MouseDoubleClicked0 (io f)) x y g = Return tt g').
Proof.
  intros Hpos. unfold dragging, released in *.
  simpl. unfold processMouseEvents.
  destruct (ImGui.WantCaptureMouse (io f)); simpl in *.
  { exists m, g. rewrite app_nil_r. repeat split; try reflexivity;
      intros; try assumption; discriminate. }
  destruct (ImGui.IsMouseDragging0 (io f)); simpl in *.
  { unfold bind, get, ret. eexists; exists g. split; [reflexivity|].
    repeat split; try reflexivity; intros; discriminate. }
  destruct (ImGui.IsMouseReleased0 (io f)); simpl in *.
  2:{ exists m, g. rewrite app_nil_r. repeat split; try reflexivity;
        intros; try assumption; discriminate. }
  destruct (dragDistSinceLastRelease m <? _)%float eqn:Hclick.
  2:{ eexists; exists g. unfold ret. split; [reflexivity|]. simpl.
      rewrite app_nil_r. repeat split; try reflexivity; intros; discriminate. }
  destruct (pickArguments (io f)) as [[x y]|] eqn:Hargs;
    [|now destruct (Hpos eq_refl)].
  destruct (evaluatePickQuery_returns radix owner (pickPixels f)
              (ImGui.MouseDoubleClicked0 (io f)) x y g)
    as (g' & Hq & Hframe).
  eexists; exists g'. unfold bind, ret. rewrite Hq. split; [reflexivity|].
  simpl. rewrite app_nil_r.
  split; [exact Hframe|]. split; [reflexivity|].
  split; [discriminate|]. split; [reflexivity|]. split; [discriminate|].
  split; [reflexivity|]. intros _ _. exists x, y. now split.
Qed.

Lemma processFrames_cons radix owner f rest m g :
  processFrames radix owner (f :: rest) m g
  = match processFrames radix owner [f] m g with
    | Some (Return m' g') => processFrames radix owner rest m' g'
    | r => r
    end.
Proof. apply (processFrames_app radix owner [f] rest). Qed.

(** The frames return when each release in the scene has a position that
    is an [int]; they write the selection and the pick buffer only, and
    each frame that drags in the scene calls [view::processMouseDrag]
    once. *)
Lemma processFrames_returns radix owner frames : forall m g,
  Forall (fun f => released f = true -> pickArguments (io f) <> None) frames ->
  exists m' g',
    processFrames radix owner frames m g = Some (Return m' g')
    /\ (st g' = st g /\ heap g' = heap g /\ nextAddr g' = nextAddr g
        /\ opts g' = opts g /\ vw g' = vw g /\ cout g' = cout g)
    /\ processMouseDrag m'
       = processMouseDrag m
         ++ map (fun f => (dragDelta (io f) (vw g),
                           negb (ImGui.KeyShift (io f))))
                (filter dragging frames)
    /\ (Forall (fun f => released f = false) frames -> g' = g)
    /\ (Forall (fun f => dragging f = false) frames ->
        dragDistSinceLastRelease m = 0%float ->
        dragDistSinceLastRelease m' = 0%float)
    /\ (Forall (fun f => dragging f = false) frames ->
        Forall (fun f => released f = false) frames -> m' = m).
Proof.
  induction frames as [|f rest IH]; intros m g Hpos.
  - exists m, g. simpl. rewrite app_nil_r. repeat split; auto.
  - inversion Hpos as [|? ? Hf Hrest]; subst.
    destruct (processFrames_one radix owner f m g Hf)
      as (m1 & g1 & E1 & Hframe1 & Hcalls1 & Hsame1 & Hzero1 & Hidle1 & _).
    destruct (IH m1 g1 Hrest)
      as (m2 & g2 & E2 & Hframe2 & Hcalls2 & Hsame2 & Hzero2 & Hidle2).
    exists m2, g2. rewrite processFrames_cons, E1.
    split; [exact E2|].
    destruct Hframe1 as (F1 & F2 & F3 & F4 & F5 & F6).
    destruct Hframe2 as (G1 & G2 & G3 & G4 & G5 & G6).
    split; [repeat split; congruence|].
    split.
    { rewrite Hcalls2, Hcalls1, F5. simpl.
      destruct (dragging f); simpl; [now rewrite <- app_assoc|].
      now rewrite app_nil_r. }
    split.
    { intros Hall. inversion Hall; subst.
      rewrite Hsame2 by assumption. now apply Hsame1. }
    split.
    { intros Hall Hz. inversion Hall; subst. apply Hzero2; [assumption|].
      now apply Hzero1. }
    intros Hd Hr. inversion Hd; subst. inversion Hr; subst.
    rewrite Hidle2 by assumption. now apply Hidle1.
Qed.

(** Handling the mouse never touches the registry: whatever the frames,
    when each release in the scene is at a position that is an [int],
    [processMouseEvents] returns in every frame, and the structures, the
    extent, the heap, the options, the viewport and the output are as
    before; the camera is told of each frame that drags in the scene,
    once, with the mouse delta over the window size and with
    [!io.KeyShift]; and as long as no button is released in the scene no
    pick query runs: the globals are the same. *)
Theorem mouse_frames_leave_registry :
  forall radix owner frames m g,
    Forall (fun f => released f = true -> pickArguments (io f) <> None)
           frames ->
    exists m' g',
      processFrames radix owner frames m g = Some (Return m' g')
      /\ st g' = st g /\ heap g' = heap g /\ opts g' = opts g
      /\ vw g' = vw g /\ cout g' = cout g
      /\ processMouseDrag m'
         = processMouseDrag m
           ++ map (fun f => (dragDelta (io f) (vw g),
                             negb (ImGui.KeyShift (io f))))
                  (filter dragging frames)
      /\ (Forall (fun f => released f = false) frames -> g' = g).
Proof.
  intros radix owner frames m g Hpos.
  destruct (processFrames_returns radix owner frames m g Hpos)
    as (m' & g' & E & (F1 & F2 & F3 & F4 & F5 & F6) & Hcalls & Hsame & _).
  exists m', g'. repeat split; assumption.
Qed.

(** A click picks: when the button is released in the scene, and again
    in a later frame with no frame in between that drags in the scene,
    the second release runs the pick query, at the mouse position scaled
    to the framebuffer, whatever was dragged before the first release. *)
Theorem click_after_release_picks :
  forall radix owner first between last m g,
    released first = true ->
    Forall (fun f => dragging f = false) between ->
    released last = true ->
    Forall (fun f => released f = true -> pickArguments (io f) <> None)
           (first :: between ++ [last]) ->
    exists m1 g1 x y g2,
      processFrames radix owner (first :: between) m g = Some (Return m1 g1)
      /\ pickArguments (io last) = Some (x, y)
      /\ evaluatePickQuery radix owner (pickPixels last)
           (ImGui.MouseDoubleClicked0 (io last)) x y g1 = Return tt g2
      /\ processFrames radix owner (first :: between ++ [last]) m g
         = Some (Return (mkMouse 0 (processMouseDrag m1)) g2).
Proof.
  intros radix owner first between last m g Hfirst Hbetween Hlast Hpos.
  inversion Hpos as [|? ? Hp1 Hp2]; subst.
  apply Forall_app in Hp2. destruct Hp2 as (Hp2 & Hp3).
  inversion Hp3 as [|? ? Hp3' _]; subst.
  destruct (processFrames_one radix owner first m g Hp1)
    as (m0 & g0 & E0 & _ & _ & _ & _ & _ & Hz0 & _).
  destruct (processFrames_returns radix owner between m0 g0 Hp2)
    as (m1 & g1 & E1 & _ & _ & _ & Hz1 & _).
  assert (Hzero : dragDistSinceLastRelease m1 = 0%float)
    by (apply Hz1; [assumption|now apply Hz0]).
  destruct (processFrames_one radix owner last m1 g1 Hp3')
    as (m2 & g2 & E2 & _ & Hcalls & _ & _ & _ & Hz2 & Hpick).
  destruct Hpick as (x & y & Hargs & Hq); [assumption|now rewrite Hzero|].
  exists m1, g1, x, y, g2.
  assert (Efirst : processFrames radix owner (first :: between) m g
                   = Some (Return m1 g1))
    by now rewrite processFrames_cons, E0.
  split; [exact Efirst|]. split; [exact Hargs|]. split; [exact Hq|].
  change (first :: between ++ [last]) with ((first :: between) ++ [last]).
  rewrite processFrames_app, Efirst, E2. do 2 f_equal.
  destruct m2 as [d c]. simpl in *.
  rewrite (Hz2 Hlast), Hcalls.
  unfold released in Hlast. unfold dragging.
  destruct (ImGui.WantCaptureMouse (io last)); [discriminate|].
  destruct (ImGui.IsMouseDragging0 (io last)); [discriminate|].
  simpl. now rewrite app_nil_r.
Qed.

Lemma mouse_frames_leave_registry_witness :
  let frames := [sceneFrame true false; capturedRelease;
                 sceneFrame false false] in
  Forall (fun f => released f = true -> pickArguments (io f) <> None) frames
  /\ exists m',
       processFrames 256 (fun i => (0%nat, i)) frames (mkMouse 0 [])
         selectedCloud
       = Some (Return m' selectedCloud)
       /\ processMouseDrag m'
          = [(0x1.99999ap-5, -0x1.99999ap-5, true)%float].
Proof.
  intros frames.
  assert (Hpos : Forall (fun f => released f = true ->
                                  pickArguments (io f) <> None) frames)
    by (repeat constructor; intros H; vm_compute in H; discriminate H).
  split; [exact Hpos|].
  destruct (mouse_frames_leave_registry 256 (fun i => (0%nat, i)) frames
              (mkMouse 0 []) selectedCloud Hpos)
    as (m' & g' & E & _ & _ & _ & _ & _ & Hcalls & Hsame).
  exists m'. split.
  - rewrite E, Hsame; [reflexivity|].
    repeat constructor.
  - rewrite Hcalls. vm_compute. reflexivity.
Defined.

Lemma click_after_release_picks_witness :
  let frames := [sceneFrame true false; sceneFrame false true;
                 capturedRelease] in
  pickArguments (io (sceneFrame false true)) = Some (200, 101)
  /\ exists m g,
       processFrames 256 (fun i => (0%nat, i)) frames (mkMouse 0 [])
         selectedCloud = Some (Return m g)
       /\ dragDistSinceLastRelease m = 0%float
       /\ selection g = pick.Selected 0 5
       /\ exists g',
            processFrames 256 (fun i => (0%nat, i))
              (frames ++ [sceneFrame false true]) (mkMouse 0 [])
              selectedCloud
            = Some (Return (mkMouse 0 (processMouseDrag m)) g')
            /\ selection g' = pick.NoSelection.
Proof.
  intros frames. split; [vm_compute; reflexivity|].
  destruct (click_after_release_picks 256 (fun i => (0%nat, i))
              (sceneFrame false true) [capturedRelease]
              (sceneFrame false true)
              (mkMouse 0x1.99999ap-4 [(0x1.99999ap-5, -0x1.99999ap-5, true)%float])
              selectedCloud)
    as (m1 & g1 & x & y & g2 & E1 & Hargs & Hq & E2).
  - reflexivity.
  - repeat constructor.
  - reflexivity.
  - repeat constructor; intros _; vm_compute; discriminate.
  - exists m1, g1.
    assert (Edrag : processFrames 256 (fun i => (0%nat, i))
                      [sceneFrame true false] (mkMouse 0 []) selectedCloud
                    = Some (Return (mkMouse 0x1.99999ap-4
                                      [(0x1.99999ap-5, -0x1.99999ap-5, true)%float])
                              selectedCloud))
      by (vm_compute; reflexivity).
    split.
    { change frames with ([sceneFrame true false]
                          ++ [sceneFrame false true; capturedRelease]).
      now rewrite processFrames_app, Edrag. }
    assert (Em : m1 = mkMouse 0 [(0x1.99999ap-5, -0x1.99999ap-5, true)%float]
                 /\ g1 = selectedCloud).
    { vm_compute in E1. injection E1 as <- <-. split; vm_compute; reflexivity. }
    destruct Em as (-> & ->).
    split; [vm_compute; reflexivity|]. split; [vm_compute; reflexivity|].
    exists g2. split.
    { change (frames ++ [sceneFrame false true])
        with ([sceneFrame true false]
              ++ (sceneFrame false true :: [capturedRelease]
                  ++ [sceneFrame false true])).
      now rewrite processFrames_app, Edrag. }
    vm_compute in Hq. injection Hq as <-. reflexivity.
Defined.
